(** * DIM: the Destiny 1 store service (app/inventory/d1-stores.ts)

    A shallow embedding of [findLastPlayedDate], [processStore],
    [loadStores] and of the [StoreService] stream wiring, with the
    properties of the store-loading design stated and proved over it. *)

From stdpp Require Import gmap strings list.
From Stdlib Require Import ZArith Lia.

Local Open Scope Z_scope.

(** ** JavaScript values used by the service *)

(** Exceptions.  A [TypeError] is what property access on [null] or
    [undefined] raises; every failure of a collaborator (a rejected API
    call, a throwing factory) is an [ExternalError] with its message. *)
Inductive Exn : Type :=
  | TypeError
  | ExternalError (msg : string).

(** A computation that either returns or throws; also the settled state of
    a promise (fulfilled with a value, or rejected). *)
Inductive Result (A : Type) : Type :=
  | Ok (a : A)
  | Throw (e : Exn).
Arguments Ok {A} a.
Arguments Throw {A} e.

Definition rbind {A B} (r : Result A) (k : A → Result B) : Result B :=
  match r with
  | Ok a => k a
  | Throw e => Throw e
  end.

(** A [Date] is its time value: a whole number of milliseconds since the
    epoch, or NaN for an invalid date. *)
Inductive JsDate : Type :=
  | DateAt (ms : Z)
  | InvalidDate.

(** [new Date(0)] *)
Definition epoch : JsDate := DateAt 0.

(** [a >= b] on dates compares the time values as numbers; a comparison
    with NaN is false. *)
Definition date_ge (a b : JsDate) : bool :=
  match a, b with
  | DateAt x, DateAt y => bool_decide (y ≤ x)
  | _, _ => false
  end.

(** ** Raw store records *)

(** [raw.character.base.characterBase]: only the field the service reads,
    already passed through [new Date(..)]. *)
Record RawCharacter : Type := {
  dateLastPlayed : JsDate;
}.

(** One record of [getStores]: the tag, the character data (absent on the
    vault record) and an opaque payload for the store factories. *)
Record RawStore : Type := {
  raw_id : string;
  raw_character : option RawCharacter;
  raw_data : list Z;
}.

(** An entry of the [rawStores] array: [None] is [null]/[undefined]. *)
Definition RawEntry : Type := option RawStore.

(** ** [findLastPlayedDate] *)

(** The reducer callback.  [memo] is a [Date] object, hence truthy: the
    conditional [memo ? .. : d1] always takes its first branch. *)
Definition lastPlayedStep (memo : JsDate) (rawStore : RawEntry) : Result JsDate :=
  match rawStore with
  | None => Throw TypeError                      (* rawStore.id on null *)
  | Some raw =>
      if bool_decide (raw_id raw = "vault") then Ok memo
      else
        match raw_character raw with
        | None => Throw TypeError                (* raw.character.base *)
        | Some c =>
            let d1 := dateLastPlayed c in
            Ok (if date_ge d1 memo then d1 else memo)
        end
  end.

(** [Array.prototype.reduce] with a callback that may throw. *)
Fixpoint reduce {A B} (f : B → A → Result B) (l : list A) (memo : B) : Result B :=
  match l with
  | [] => Ok memo
  | x :: l' => rbind (f memo x) (reduce f l')
  end.

Definition findLastPlayedDate (rawStores : list RawEntry) : Result JsDate :=
  reduce lastPlayedStep rawStores epoch.

(** *** Vocabulary for statements about [findLastPlayedDate] *)

Definition isVaultRecord (raw : RawStore) : bool :=
  bool_decide (raw_id raw = "vault").

(** Every entry is a record, and every character record carries its
    character data. *)
Definition wellFormedRaw (e : RawEntry) : bool :=
  match e with
  | None => false
  | Some raw => isVaultRecord raw || bool_decide (is_Some (raw_character raw))
  end.

Definition wellFormed (rawStores : list RawEntry) : bool :=
  forallb wellFormedRaw rawStores.

(** The valid time values of the character records, in list order. *)
Fixpoint characterTimes (rawStores : list RawEntry) : list Z :=
  match rawStores with
  | [] => []
  | Some raw :: l =>
      if isVaultRecord raw then characterTimes l
      else
        match raw_character raw with
        | Some {| dateLastPlayed := DateAt t |} => t :: characterTimes l
        | _ => characterTimes l
        end
  | None :: l => characterTimes l
  end.

(** The character records of a list (entries that are records and do not
    carry the vault tag). *)
Definition characterRecords (rawStores : list RawEntry) : list RawStore :=
  filter (λ raw, isVaultRecord raw = false) (omap (λ e, e) rawStores).

(** The greatest element of a list of time values, from a starting value. *)
Definition maxFrom (start : Z) (ts : list Z) : Z := foldr Z.max start ts.

(** The greatest element of a non-empty list of time values. *)
Definition maxOf (ts : list Z) : option Z :=
  match ts with
  | [] => None
  | t :: ts' => Some (maxFrom t ts')
  end.

(** ** Buckets, items and stores *)

(** An inventory bucket.  [vaultBucket] is the bucket of the vault that
    items of this bucket are stored in, when there is one. *)
#[warnings="-register-all"] Inductive InventoryBucket : Type := mkBucket {
  hash : Z;
  accountWide : bool;
  vaultBucket : option InventoryBucket;
}.

(** The bucket catalog.  [byType] is an object keyed by type name;
    [Object.values] lists its values in insertion order. *)
Record InventoryBuckets : Type := {
  byType : list (string * InventoryBucket);
}.

Definition Object_values {V} (o : list (string * V)) : list V := o.*2.

(** A processed item: the service only reads [location.hash]. *)
Record D1Item : Type := {
  item_id : string;
  location : InventoryBucket;
}.

(** An entry of [vaultCounts]. *)
Record VaultCount : Type := {
  count : Z;
  bucket : InventoryBucket;
}.

(** A store (character or vault).  [store_data] stands for the fields the
    factories fill in and the service never touches; [vaultCounts] is
    [None] as long as the property is unset. *)
Record D1Store : Type := {
  id : string;
  isVault : bool;
  items : list D1Item;
  buckets : gmap Z (list D1Item);
  vaultCounts : option (gmap Z VaultCount);
  store_data : list Z;
}.

(** [DimVault['currencies']]: an array shared by all the conversions of a
    cycle, which the store factories push into. *)
Definition Currencies : Type := list (Z * Z).

(** ** Library functions *)

(** [Array.prototype.indexOf]: the first index holding [x], or [-1]. *)
Fixpoint indexOf_from (l : list Z) (x : Z) (i : Z) : Z :=
  match l with
  | [] => -1
  | y :: l' => if bool_decide (y = x) then i else indexOf_from l' x (i + 1)
  end.

Definition indexOf (l : list Z) (x : Z) : Z := indexOf_from l x 0.

(** [_.sortBy]: a stable sort, ascending in the key.  An element is put
    before the first element of the sorted rest whose key is not smaller. *)
Fixpoint insertBy {A} (key : A → Z) (x : A) (l : list A) : list A :=
  match l with
  | [] => [x]
  | y :: l' => if bool_decide (key x ≤ key y) then x :: y :: l'
               else y :: insertBy key x l'
  end.

Definition sortBy {A} (l : list A) (key : A → Z) : list A :=
  foldr (insertBy key) [] l.

(** [_.groupBy(items, key)]: each key maps to the elements having it, in
    their original order. *)
Definition groupBy {A} (l : list A) (key : A → Z) : gmap Z (list A) :=
  foldl (λ acc x, <[key x := default [] (acc !! key x) ++ [x]]> acc) ∅ l.

(** [_.compact]: drops the falsy entries ([undefined] here). *)
Definition compact {A} (l : list (option A)) : list A := omap (λ e, e) l.

(** [Promise.all] over settled promises: all the values, or a rejection
    (of several, the first in array order is kept; [Promise.all] keeps the
    first in time). *)
Fixpoint Promise_all {A} (ps : list (Result A)) : Result (list A) :=
  match ps with
  | [] => Ok []
  | p :: ps' => rbind p (λ a, rbind (Promise_all ps') (λ l, Ok (a :: l)))
  end.

(** ** [processStore] *)

Definition vaultBucketOrder : list Z :=
  [ 4046403665   (* Weapons *)
  ; 3003523923   (* Armor *)
  ; 138197802 ]. (* General *)

(** [Object.values(buckets.byType).filter((b) => b.vaultBucket)]: the
    buckets that have the association, each with the bucket that the
    non-null assertions [b.vaultBucket!] read afterwards. *)
Definition withVaultBucket (catalog : list InventoryBucket)
  : list (InventoryBucket * InventoryBucket) :=
  omap (λ b, (λ vb, (b, vb)) <$> vaultBucket b) catalog.

(** The order in which the [forEach] of the vault counts visits buckets. *)
Definition vaultIteration (bs : InventoryBuckets)
  : list (InventoryBucket * InventoryBucket) :=
  sortBy (withVaultBucket (Object_values (byType bs)))
         (λ b, indexOf vaultBucketOrder (hash b.2)).

(** The "fill in any missing buckets" loop. *)
Definition fillMissing (catalog : list InventoryBucket)
    (m : gmap Z (list D1Item)) : gmap Z (list D1Item) :=
  foldl (λ acc b, match acc !! hash b with
                  | Some _ => acc
                  | None => <[hash b := []]> acc
                  end) m catalog.

(** The body of the [forEach] over [vaultIteration]. *)
Definition countBucket (storeBuckets : gmap Z (list D1Item))
    (vc : gmap Z VaultCount) (b : InventoryBucket * InventoryBucket)
  : gmap Z VaultCount :=
  let vaultBucketId := hash b.2 in
  let entry := default {| count := 0;
                          bucket := if accountWide b.1 then b.1 else b.2 |}
                       (vc !! vaultBucketId) in
  <[vaultBucketId :=
      {| count := count entry
                  + Z.of_nat (length (default [] (storeBuckets !! hash b.1)));
         bucket := bucket entry |}]> vc.

Definition computeVaultCounts (bs : InventoryBuckets)
    (storeBuckets : gmap Z (list D1Item)) : gmap Z VaultCount :=
  foldl (countBucket storeBuckets) ∅ (vaultIteration bs).

(** The callback run on the items that [processItems] resolves with. *)
Definition finishStore (store : D1Store) (bs : InventoryBuckets)
    (its : list D1Item) : D1Store :=
  let storeBuckets :=
    fillMissing (Object_values (byType bs)) (groupBy its (λ i, hash (location i))) in
  {| id := id store;
     isVault := isVault store;
     items := its;
     buckets := storeBuckets;
     vaultCounts := if isVault store then Some (computeVaultCounts bs storeBuckets)
                    else vaultCounts store;
     store_data := store_data store |}.

Section Collaborators.

(** The manifest definitions and the raw items are opaque here. *)
Context {Defs RawItem : Type}.

(** What a store factory returns, with the currencies array after it. *)
Definition Made : Type := Result (D1Store * list RawItem) * Currencies.

(** The store factories and the item factory (d1-store-factory,
    d1-item-factory).  [processItems] gives the settled state of the
    promise it returns. *)
Variable makeVault : RawStore → Currencies → Made.
Variable makeCharacter : RawStore → Defs → JsDate → Currencies → Made.
Variable processItems :
  D1Store → list RawItem → Defs → InventoryBuckets → Result (list D1Item).

(** [processStore] returns [undefined] ([None]) or a promise of the
    store, or throws when a factory throws; the currencies array is
    threaded through. *)
Definition processStore (raw : RawEntry) (defs : Defs) (bs : InventoryBuckets)
    (currencies : Currencies) (lastPlayedDate : JsDate)
  : Result (option (Result D1Store)) * Currencies :=
  match raw with
  | None => (Ok None, currencies)
  | Some raw =>
      let made :=
        if bool_decide (raw_id raw = "vault") then makeVault raw currencies
        else makeCharacter raw defs lastPlayedDate currencies in
      match made with
      | (Throw e, currencies') => (Throw e, currencies')
      | (Ok (store, its), currencies') =>
          (Ok (Some (rbind (processItems store its defs bs)
                           (λ its', Ok (finishStore store bs its')))),
           currencies')
      end
  end.


(** [rawStores.map((raw) => processStore(raw, ..))]: the synchronous parts
run in array order on the shared currencies array; a factory that throws
ends the loop. *)
Fixpoint mapProcessStore (rawStores : list RawEntry) (defs : Defs)
    (bs : InventoryBuckets) (currencies : Currencies) (lastPlayedDate : JsDate)
  : Result (list (option (Result D1Store))) * Currencies :=
  match rawStores with
  | [] => (Ok [], currencies)
  | raw :: rest =>
      match processStore raw defs bs currencies lastPlayedDate with
      | (Throw e, currencies') => (Throw e, currencies')
      | (Ok p, currencies') =>
          match mapProcessStore rest defs bs currencies' lastPlayedDate with
          | (Throw e, currencies'') => (Throw e, currencies'')
          | (Ok ps, currencies'') => (Ok (p :: ps), currencies'')
          end
      end
  end.

(** ** [loadStores] *)

(** The application state behind [getState()] and the account type are
opaque; the selectors and the reducer are those of the application. *)
Context {AppState Account : Type}.

(** The plain actions that [loadStores] dispatches. *)
Inductive Action : Type :=
  | update (stores : list D1Store)
  | error (e : Exn).

(** What a cycle does besides reading and dispatching: the calls it makes on
the console, the exception reporter, the notification sink, the id tracker
and the document style, and the plain actions it dispatches itself. *)
Inductive Event : Type :=
  | ConsoleError (e : Exn)
  | ReportException (context : string) (e : Exn)
  | ShowNotification (e : Exn)          (* showNotification(bungieErrorToaster(e)) *)
  | Dispatch (a : Action)
  | ResetIdTracker
  | SetNumCharacters (n : Z).

(** A step of a cycle: it reads and changes the application state, returns
or throws, and emits events. *)
Definition Cycle (A : Type) : Type := AppState → Result A * AppState * list Event.

Definition ret {A} (a : A) : Cycle A := λ s, (Ok a, s, []).

Definition bind {A B} (m : Cycle A) (k : A → Cycle B) : Cycle B :=
  λ s, match m s with
       | (Ok a, s', evs) =>
           match k a s' with
           | (r, s'', evs') => (r, s'', evs ++ evs')
           end
       | (Throw e, s', evs) => (Throw e, s', evs)
       end.

(** [try { body } catch (e) { handler }] *)
Definition tryCatch {A} (body : Cycle A) (handler : Exn → Cycle A) : Cycle A :=
  λ s, match body s with
       | (Ok a, s', evs) => (Ok a, s', evs)
       | (Throw e, s', evs) =>
           match handler e s' with
           | (r, s'', evs') => (r, s'', evs ++ evs')
           end
       end.

Definition emit (ev : Event) : Cycle unit := λ s, (Ok (), s, [ev]).

Definition liftResult {A} (r : Result A) : Cycle A := λ s, (r, s, []).

(** A collaborator acts on the application state and emits none of the
events above. *)
Definition call {A} (f : AppState → Result A * AppState) : Cycle A :=
  λ s, (f s, []).

Definition select {A} (selector : AppState → A) : Cycle A :=
  λ s, (Ok (selector s), s, []).

Variable currentAccountSelector : AppState → option Account.
Variable storesSelector : AppState → list D1Store.
Variable bucketsSelector : AppState → InventoryBuckets.
Variable reducer : Action → AppState → AppState.

(** The thunks and API calls of the cycle.  [getPlatforms], [getDefinitions],
[loadNewItems] and [getStores] are awaited: each gives the settled state of
the promise it returns.  [dispatch(fetchRatings(stores))] and
[dispatch(cleanInfos(stores))] are not awaited: for these two a [Throw] is an
exception thrown by the call itself, and a promise they return that rejects
later does not reach the cycle (it counts as [Ok] here). *)
Variable getPlatforms : AppState → Result () * AppState.
Variable getDefinitions : AppState → Result Defs * AppState.
Variable loadNewItems : Account → AppState → Result () * AppState.
Variable getStores : Account → AppState → Result (list RawEntry) * AppState.
Variable fetchRatings : list D1Store → AppState → Result () * AppState.
Variable cleanInfos : list D1Store → AppState → Result () * AppState.

(** [$featureFlags.reviewsEnabled] *)
Variable reviewsEnabled : bool.

(** [dispatch] of a plain action runs the reducer. *)
Definition dispatch (a : Action) : Cycle unit :=
  λ s, (Ok (), reducer a s, [Dispatch a]).

(** [await Promise.all([a, b, c])]: the three calls are started in order (so
all their effects happen), and the await throws when one of them rejects.
With several rejections the exception kept here is the first in array order;
[Promise.all] keeps the first in time, which this model does not tell
apart. *)
Definition Promise_all3 {A B C} (a : Cycle A) (b : Cycle B) (c : Cycle C)
  : Cycle (A * B * C) :=
  λ s, match a s with
       | (ra, s1, e1) =>
           match b s1 with
           | (rb, s2, e2) =>
               match c s2 with
               | (rc, s3, e3) =>
                   (rbind ra (λ x, rbind rb (λ y, rbind rc (λ z, Ok (x, y, z)))),
                    s3, e1 ++ e2 ++ e3)
               end
           end
       end.

Notation "'let!' x ':=' m 'in' k" := (bind m (λ x, k))
  (at level 10, x name, m at level 100, k at level 200, only parsing).
Notation "m '>>>' k" := (bind m (λ _, k))
  (at level 100, k at level 200, right associativity, only parsing).

(** The body of the [try]. *)
Definition loadStores_try : Cycle (option (list D1Store)) :=
  let! account0 := select currentAccountSelector in
  let! account := match account0 with
            | Some a => ret (Some a)
            | None => call getPlatforms >>> select currentAccountSelector
            end in
  match account with
  | None => ret None
  | Some account =>
      emit ResetIdTracker >>>
      let! fetched := Promise_all3 (call getDefinitions)
                             (call (loadNewItems account))
                             (call (getStores account)) in
      let '(defs, _, rawStores) := fetched in
      let! lastPlayedDate := liftResult (findLastPlayedDate rawStores) in
      let! bs := select bucketsSelector in
      let currencies : Currencies := [] in
      let! promises := liftResult (mapProcessStore rawStores defs bs currencies lastPlayedDate).1 in
      let! stores := liftResult (Promise_all (compact promises)) in
      (if reviewsEnabled then call (fetchRatings stores) else ret ()) >>>
      call (cleanInfos stores) >>>
      emit (SetNumCharacters (Z.of_nat (length stores) - 1)) >>>
      dispatch (update stores) >>>
      ret (Some stores)
  end.

(** The [catch] block. *)
Definition loadStores_catch (e : Exn) : Cycle (option (list D1Store)) :=
  emit (ConsoleError e) >>>
  emit (ReportException "D1StoresService" e) >>>
  let! published := select storesSelector in
  (if bool_decide (0 < Z.of_nat (length published))
   then emit (ShowNotification e)
   else dispatch (error e)) >>>
  ret None.

(** The promise [loadStores] returns: [None] is [undefined]. *)
Definition loadStores : Cycle (option (list D1Store)) :=
  tryCatch loadStores_try loadStores_catch.

End Collaborators.

(** ** The store service: [accountStream], [forceReloadTrigger], [storesStream] *)

(** What [storesStream] carries: [D1Store[] | undefined]. *)
Definition Stores : Type := option (list D1Store).

(** A value on [storesStream], with the pipeline run (the call of
[loadStores]) whose promise delivered it. *)
Record Emission : Type := {
  run : nat;
  value : Stores;
}.

(** A subscriber made by [reloadStores]: [storesStream.pipe(take(2))] under
[toPromise], with the number of values it has received. *)
Record Taker : Type := {
  promise : nat;
  seen : nat;
}.

Section Service.

Context {Account : Type}.

(** The state of the closure of [StoreService].  [runs], [activations],
[promises] and [resolved] record history: the pipeline runs started so far
(a run is named by its rank), the subscriptions of the source made by
[connect], the promises handed out by [reloadStores] and the values they
resolved with. *)
Record Service : Type := {
  accountStream : option Account;   (* the BehaviorSubject's current value *)
  connection : bool;                (* storesStream has a connection *)
  inner : option nat;               (* the run the outer switchMap listens to *)
  replay : option Emission;         (* the buffer of publishReplay(1) *)
  takers : list Taker;
  runs : nat;
  activations : nat;
  promises : nat;
  resolved : list (nat * Emission);
}.

Definition StoreService : Service :=
  {| accountStream := None; connection := false; inner := None;
     replay := None; takers := []; runs := 0%nat; activations := 0%nat;
     promises := 0%nat; resolved := [] |}.

(** A value reaches the outer [switchMap(() => loadingTracker.addPromise(
badDispatch(loadStores())))]: it drops its inner subscription and listens
to the promise of a new run. *)
Definition source_next (s : Service) : Service :=
  {| accountStream := accountStream s; connection := connection s;
     inner := Some (runs s);
     replay := replay s; takers := takers s;
     runs := S (runs s);
     activations := activations s; promises := promises s;
     resolved := resolved s |}.

(** [accountStream.next(account)]: the subject stores the value and hands it
to its subscriber, the source pipeline, which exists once connected. *)
Definition accountStream_next (account : Account) (s : Service) : Service :=
  let s' :=
    {| accountStream := Some account; connection := connection s;
       inner := inner s; replay := replay s; takers := takers s;
       runs := runs s; activations := activations s; promises := promises s;
       resolved := resolved s |} in
  if connection s then source_next s' else s'.

(** [storesStream.connect()]: with a connection it does nothing; without,
it subscribes the source, and the behavior subject hands its current value
to the new subscriber at once. *)
Definition storesStream_connect (s : Service) : Service :=
  if connection s then s
  else
    source_next
      {| accountStream := accountStream s; connection := true;
         inner := inner s; replay := replay s; takers := takers s;
         runs := runs s; activations := S (activations s);
         promises := promises s; resolved := resolved s |}.

(** [forceReloadTrigger.next()]: a plain subject, heard only by the connected
source, where [switchMap(() => accountStream.pipe(take(1)))] hands on the
current account at once. *)
Definition forceReloadTrigger_next (s : Service) : Service :=
  if connection s then source_next s else s.

(** [storesStream.pipe(take(2)).toPromise()]: the new subscriber receives
the buffered value, if there is one, when it subscribes. *)
Definition storesStream_take2 (s : Service) : Service :=
  {| accountStream := accountStream s; connection := connection s;
     inner := inner s; replay := replay s;
     takers := takers s ++ [{| promise := promises s;
                               seen := match replay s with
                                       | Some _ => 1%nat
                                       | None => 0%nat
                                       end |}];
     runs := runs s; activations := activations s;
     promises := S (promises s);
     resolved := resolved s |}.

(** A taker receives a value: the second one completes it, and its promise
resolves with that value. *)
Definition deliver (em : Emission) (t : Taker) : Taker + nat * Emission :=
  if bool_decide (S (seen t) = 2%nat) then inr (promise t, em)
  else inl {| promise := promise t; seen := S (seen t) |}.

Fixpoint deliverAll (em : Emission) (ts : list Taker)
  : list Taker * list (nat * Emission) :=
  match ts with
  | [] => ([], [])
  | t :: ts' =>
      let '(keep, done) := deliverAll em ts' in
      match deliver em t with
      | inl t' => (t' :: keep, done)
      | inr r => (keep, r :: done)
      end
  end.

(** The source emits: the replay buffer keeps the value and every
subscriber receives it. *)
Definition storesStream_emit (em : Emission) (s : Service) : Service :=
  let '(keep, done) := deliverAll em (takers s) in
  {| accountStream := accountStream s; connection := connection s;
     inner := inner s; replay := Some em; takers := keep;
     runs := runs s; activations := activations s; promises := promises s;
     resolved := resolved s ++ done |}.

(** The promise of run [k] fulfils with [v].  [loadStores] never rejects.
The outer [switchMap] passes the value on only if it still listens to that
run, and the inner subscription then ends. *)
Definition settle (k : nat) (v : Stores) (s : Service) : Service :=
  if bool_decide (inner s = Some k) then
    storesStream_emit {| run := k; value := v |}
      {| accountStream := accountStream s; connection := connection s;
         inner := None; replay := replay s; takers := takers s;
         runs := runs s; activations := activations s; promises := promises s;
         resolved := resolved s |}
  else s.

Definition getStoresStream (account : Account) (s : Service) : Service :=
  storesStream_connect (accountStream_next account s).

(** The promise returned is the one numbered [promises s]. *)
Definition reloadStores (s : Service) : Service :=
  forceReloadTrigger_next (storesStream_take2 s).

(** What happens to the service: calls of its two operations, and promises
of pipeline runs settling. *)
Inductive Occurrence : Type :=
  | GetStoresStream (account : Account)
  | ReloadStores
  | Settle (k : nat) (v : Stores).

Definition occur (s : Service) (o : Occurrence) : Service :=
  match o with
  | GetStoresStream account => getStoresStream account s
  | ReloadStores => reloadStores s
  | Settle k v => settle k v s
  end.

Definition exec (s : Service) (history : list Occurrence) : Service :=
  foldl occur s history.

Definition reachable (s : Service) : Prop :=
  ∃ history, s = exec StoreService history.

Definition isGetStoresStream (o : Occurrence) : bool :=
  match o with GetStoresStream _ => true | _ => false end.

Definition isReloadStores (o : Occurrence) : bool :=
  match o with ReloadStores => true | _ => false end.

End Service.

(** ** Vocabulary and sample inputs for the statements *)

Definition mkChar (name : string) (d : JsDate) : RawEntry :=
  Some {| raw_id := name; raw_character := Some {| dateLastPlayed := d |};
          raw_data := [] |}.

Definition mkVaultRaw : RawEntry :=
  Some {| raw_id := "vault"; raw_character := None; raw_data := [] |}.

(** The entries other than vault records. *)
Definition notVault (e : RawEntry) : bool :=
  match e with
  | Some raw => negb (isVaultRecord raw)
  | None => true
  end.

Definition dropVault (rawStores : list RawEntry) : list RawEntry :=
  filter (λ e, notVault e = true) rawStores.

(** Records with character dates before the epoch: the seed wins. *)
Definition preEpochRaws : list RawEntry :=
  [mkVaultRaw; mkChar "hunter" (DateAt (-1000)); mkChar "titan" (DateAt (-2000))].

Definition twoCharacterRaws : list RawEntry :=
  [mkVaultRaw; mkChar "hunter" (DateAt 1000); mkChar "titan" (DateAt 2000)].

(** The catalog as a list, and the hashes it defines. *)
Definition catalogOf (bs : InventoryBuckets) : list InventoryBucket :=
  Object_values (byType bs).

(** The order of the vault counts as the design document words it: Weapons,
Armor, General, then every other bucket with a vault bucket, each group in
catalog order. *)
Definition priorityThenOthers (bs : InventoryBuckets)
  : list (InventoryBucket * InventoryBucket) :=
  let declaring := withVaultBucket (catalogOf bs) in
  filter (λ p, hash p.2 = 4046403665) declaring
  ++ filter (λ p, hash p.2 = 3003523923) declaring
  ++ filter (λ p, hash p.2 = 138197802) declaring
  ++ filter (λ p, hash p.2 ∉ vaultBucketOrder) declaring.

(** Sample buckets: the three vault buckets of the order, a vault bucket
outside it, and buckets stored in them. *)
Definition weaponsVault : InventoryBucket := mkBucket 4046403665 false None.
Definition armorVault : InventoryBucket := mkBucket 3003523923 false None.
Definition generalVault : InventoryBucket := mkBucket 138197802 false None.
Definition otherVault : InventoryBucket := mkBucket 999 false None.

Definition primary : InventoryBucket := mkBucket 1498876634 false (Some weaponsVault).
Definition special : InventoryBucket := mkBucket 2465295065 false (Some weaponsVault).
Definition helmet : InventoryBucket := mkBucket 3448274439 false (Some armorVault).
Definition consumables : InventoryBucket := mkBucket 1469714392 true (Some generalVault).
Definition materials : InventoryBucket := mkBucket 3865314626 false (Some generalVault).
Definition postmaster : InventoryBucket := mkBucket 215593132 false None.
Definition bounties : InventoryBucket := mkBucket 2197472680 false (Some otherVault).

Definition sampleBuckets : InventoryBuckets :=
  {| byType := [("Primary", primary); ("Bounties", bounties);
                ("Helmet", helmet); ("Consumables", consumables);
                ("Special", special); ("Materials", materials);
                ("Postmaster", postmaster)] |}.

(** Sample collaborators.  The payload of a raw record lists the bucket
hashes of its items; the item factory places each item in the catalog
bucket of that hash, or in a bucket of its own when the catalog has none. *)
Definition sampleStore (raw : RawStore) (vault : bool) (data : list Z) : D1Store :=
  {| id := raw_id raw; isVault := vault; items := []; buckets := ∅;
     vaultCounts := None; store_data := data |}.

Definition sampleMakeVault (raw : RawStore) (currencies : Currencies)
  : Made (RawItem := Z) :=
  (Ok (sampleStore raw true [], raw_data raw), currencies ++ [(0, 0)]).

(** The sample character remembers the date it was made with. *)
Definition sampleMakeCharacter (raw : RawStore) (defs : unit)
    (lastPlayedDate : JsDate) (currencies : Currencies) : Made (RawItem := Z) :=
  (Ok (sampleStore raw false match lastPlayedDate with
                             | DateAt t => [t]
                             | InvalidDate => []
                             end,
       raw_data raw), currencies).

Definition bucketOfHash (bs : InventoryBuckets) (h : Z) : InventoryBucket :=
  default (mkBucket h false None)
          (head (filter (λ b, hash b = h) (catalogOf bs))).

Definition sampleProcessItems (store : D1Store) (rawItems : list Z)
    (defs : unit) (bs : InventoryBuckets) : Result (list D1Item) :=
  Ok ((λ h, {| item_id := id store; location := bucketOfHash bs h |}) <$> rawItems).

Definition sampleProcessStore :=
  processStore sampleMakeVault sampleMakeCharacter sampleProcessItems.

Definition rawWith (name : string) (hashes : list Z) : RawStore :=
  {| raw_id := name;
     raw_character := if bool_decide (name = "vault") then None
                      else Some {| dateLastPlayed := DateAt 1000 |};
     raw_data := hashes |}.

(** The store a conversion resolves with, when it does. *)
Definition resolved_store (r : Result (option (Result D1Store)) * Currencies)
  : option D1Store :=
  match r with
  | (Ok (Some (Ok store)), _) => Some store
  | _ => None
  end.

(** A vault record with an item in a bucket the catalog does not have. *)
Definition strayItemVault : RawEntry :=
  Some (rawWith "vault" [1498876634; 424242]).

(** A vault record whose items are all in catalog buckets. *)
Definition tidyVault : RawEntry :=
  Some (rawWith "vault" [1498876634; 1498876634; 3448274439]).

(** The bucket recorded with a vault count when [p] is the first bucket
visited for it. *)
Definition representative (p : InventoryBucket * InventoryBucket)
  : InventoryBucket :=
  if accountWide p.1 then p.1 else p.2.

(** How many of the items are located (by hash) in bucket [b]. *)
Definition heldIn (its : list D1Item) (b : InventoryBucket) : nat :=
  length (filter (λ i, hash (location i) = hash b) its).

(** The catalog buckets whose vault bucket has hash [X], in catalog order. *)
Definition declaring (bs : InventoryBuckets) (X : Z)
  : list (InventoryBucket * InventoryBucket) :=
  filter (λ p, hash p.2 = X) (withVaultBucket (catalogOf bs)).




Definition armedHunter : RawEntry :=
  Some (rawWith "hunter" [1498876634; 1498876634; 1498876634]).

(** A vault with two primary weapons, a special weapon, a helmet, two
consumables and three materials. *)
Definition stockedVault : RawEntry :=
  Some (rawWith "vault" [1498876634; 1469714392; 3865314626; 2465295065;
                         3448274439; 3865314626; 1498876634; 1469714392;
                         3865314626]).

(** The plain actions among the events of a cycle. *)
Definition dispatched (evs : list Event) : list Action :=
  omap (λ ev, match ev with Dispatch a => Some a | _ => None end) evs.

(** A sample application: the state holds the selected account, the
published stores, the error state and what the API will answer. *)
Record SampleApp : Type := {
  app_account : option string;
  app_stores : list D1Store;
  app_error : option Exn;
  app_api : Result (list RawEntry);
}.

Definition sampleReducer (a : Action) (s : SampleApp) : SampleApp :=
  match a with
  | update stores =>
      {| app_account := app_account s; app_stores := stores;
         app_error := app_error s; app_api := app_api s |}
  | error e =>
      {| app_account := app_account s; app_stores := app_stores s;
         app_error := Some e; app_api := app_api s |}
  end.

Definition sampleIdle {A} (a : A) (s : SampleApp) : Result A * SampleApp :=
  (Ok a, s).

Definition sampleLoadStores : Cycle (AppState := SampleApp) (option (list D1Store)) :=
  loadStores sampleMakeVault sampleMakeCharacter sampleProcessItems
    app_account app_stores (λ _, sampleBuckets) sampleReducer
    (sampleIdle ()) (sampleIdle ()) (λ _, sampleIdle ())
    (λ _ s, (app_api s, s)) (λ _, sampleIdle ()) (λ _, sampleIdle ()) false.

Definition sampleTry : Cycle (AppState := SampleApp) (option (list D1Store)) :=
  loadStores_try sampleMakeVault sampleMakeCharacter sampleProcessItems
    app_account (λ _, sampleBuckets) sampleReducer
    (sampleIdle ()) (sampleIdle ()) (λ _, sampleIdle ())
    (λ _ s, (app_api s, s)) (λ _, sampleIdle ()) (λ _, sampleIdle ()) false.

(** A first visit (nothing published yet) and a later one, each with an
API that rejects, that answers well, or that answers with a null record. *)
Definition appWith (stores : list D1Store) (api : Result (list RawEntry))
  : SampleApp :=
  {| app_account := Some "player"; app_stores := stores; app_error := None;
     app_api := api |}.

Definition apiDown : Result (list RawEntry) := Throw (ExternalError "503").

Definition apiNullRecord : Result (list RawEntry) :=
  Ok [armedHunter; None; stockedVault].

Definition apiFine : Result (list RawEntry) := Ok [armedHunter; stockedVault].

Definition oldStores : list D1Store :=
  [sampleStore (rawWith "hunter" []) false []; sampleStore (rawWith "vault" []) true []].

(** What holds of the service in every state it can reach: without a
connection no run is listened to; the run listened to, the run of the
buffered value and the runs of resolved values have started; and the
promises of takers and of resolved values have been handed out. *)
Definition consistent {Account} (s : Service (Account := Account)) : Prop :=
  (connection s = false → inner s = None) ∧
  (∀ k, inner s = Some k → (k < runs s)%nat) ∧
  (∀ em, replay s = Some em → (run em < runs s)%nat) ∧
  (∀ p em, (p, em) ∈ resolved s → (p < promises s)%nat) ∧
  (∀ t, t ∈ takers s → (promise t < promises s)%nat) ∧
  activations s = (if connection s then 1 else 0)%nat.

(** The number of calls of [getStoresStream] in a history. *)
Definition subscribeCalls {Account} (history : list (Occurrence (Account := Account)))
  : nat :=
  length (filter (λ o, isGetStoresStream o = true) history).

(** A sample history: a first subscription, its run settling, the same
account subscribed again, and another account. *)
Definition sampleHistory : list (Occurrence (Account := string)) :=
  [GetStoresStream "player"; Settle 0 (Some []); GetStoresStream "player";
   GetStoresStream "other"].

Definition loadedService : Service (Account := string) :=
  exec StoreService [GetStoresStream "player"; Settle 0 (Some [])].

(** The two sample characters and the vault in another order. *)
Definition reorderedRaws : list RawEntry :=
  [mkChar "hunter" (DateAt 1000); mkChar "titan" (DateAt 2000); mkVaultRaw].

(** The sum of the counts of a [vaultCounts] object. *)
Definition totalCount (vc : gmap Z VaultCount) : Z :=
  map_fold (λ _ entry total, count entry + total) 0 vc.

(** The hashes of the catalog buckets that have a vault bucket. *)
Definition vaultedHashes (bs : InventoryBuckets) : list Z :=
  (λ p, hash p.1) <$> withVaultBucket (catalogOf bs).

(** The exceptions shown as notifications among the events of a cycle. *)
Definition notified (evs : list Event) : list Exn :=
  omap (λ ev, match ev with ShowNotification e => Some e | _ => None end) evs.

(** The sample application with another account resolver, and with reviews
enabled and another rating service. *)
Definition sampleLoadStoresWith
    (getPlatforms : SampleApp → Result () * SampleApp)
    (fetchRatings : list D1Store → SampleApp → Result () * SampleApp)
    (reviewsEnabled : bool)
  : Cycle (AppState := SampleApp) (option (list D1Store)) :=
  loadStores sampleMakeVault sampleMakeCharacter sampleProcessItems
    app_account app_stores (λ _, sampleBuckets) sampleReducer
    getPlatforms (sampleIdle ()) (λ _, sampleIdle ())
    (λ _ s, (app_api s, s)) fetchRatings (λ _, sampleIdle ()) reviewsEnabled.

(** An account resolver that selects an account, one that finds none and
one that fails. *)
Definition selectPlayer (s : SampleApp) : Result () * SampleApp :=
  (Ok (), {| app_account := Some "player"; app_stores := app_stores s;
             app_error := app_error s; app_api := app_api s |}).

Definition platformsDown (s : SampleApp) : Result () * SampleApp :=
  (Throw (ExternalError "no platforms"), s).

Definition signedOut (api : Result (list RawEntry)) : SampleApp :=
  {| app_account := None; app_stores := []; app_error := None; app_api := api |}.

(** The occurrences of a history that make the source load: every
subscription, and every reload asked for once the stream is connected. *)
Fixpoint pipelineTriggers {Account} (connected : bool)
    (history : list (Occurrence (Account := Account))) : nat :=
  match history with
  | [] => 0
  | GetStoresStream _ :: rest => S (pipelineTriggers true rest)
  | ReloadStores :: rest =>
      ((if connected then 1 else 0) + pipelineTriggers connected rest)%nat
  | Settle _ _ :: rest => pipelineTriggers connected rest
  end.

(** The buffered value comes from a run older than the one listened to. *)
Definition ordered {Account} (s : Service (Account := Account)) : Prop :=
  ∀ em k, replay s = Some em → inner s = Some k → (run em < k)%nat.

(** A history with a reload before the first subscription and two reloads
after it. *)
Definition reloadHistory : list (Occurrence (Account := string)) :=
  [ReloadStores; GetStoresStream "player"; Settle 0 (Some []); ReloadStores;
   Settle 1 None; ReloadStores].

(** A service whose first run is still loading. *)
Definition loadingService : Service (Account := string) :=
  exec StoreService [GetStoresStream "player"].

Definition isSettle {Account} (o : Occurrence (Account := Account)) : bool :=
  match o with Settle _ _ => true | _ => false end.

(** The promise [p] is pending, and its taker has received at most the one
value of a run that is not listened to any more. *)
Definition waiting {Account} (p : nat) (s : Service (Account := Account)) : Prop :=
  (∀ em, (p, em) ∉ resolved s) ∧
  (∀ t, t ∈ takers s → promise t = p →
        seen t = 0%nat ∨ (seen t = 1%nat ∧ inner s = None)).
(** * Properties *)

(** ** [findLastPlayedDate] *)

Example findLastPlayedDate_ex1 :
  findLastPlayedDate [mkVaultRaw; mkChar "a" (DateAt 10); mkChar "b" (DateAt 20)]
  = Ok (DateAt 20).
Proof. reflexivity. Qed.

Example findLastPlayedDate_ex2 : findLastPlayedDate [] = Ok epoch.
Proof. reflexivity. Qed.

Example findLastPlayedDate_ex3 :
  findLastPlayedDate [mkChar "a" (DateAt (-5))] = Ok (DateAt 0).
Proof. reflexivity. Qed.

Example findLastPlayedDate_ex4 :
  findLastPlayedDate [None; mkVaultRaw] = Throw TypeError.
Proof. reflexivity. Qed.

Lemma maxFrom_max (a b : Z) (ts : list Z) :
  maxFrom (Z.max a b) ts = Z.max b (maxFrom a ts).
Proof.
  unfold maxFrom. induction ts as [|t ts IH]; cbn [foldr]; [lia|].
  rewrite IH. lia.
Qed.

Lemma maxFrom_ge_start (a : Z) (ts : list Z) : a ≤ maxFrom a ts.
Proof. unfold maxFrom. induction ts as [|t ts IH]; cbn [foldr]; lia. Qed.

Lemma maxFrom_floor (t : Z) (ts : list Z) :
  maxFrom 0 (t :: ts) = Z.max 0 (maxFrom t ts).
Proof.
  change (maxFrom 0 (t :: ts)) with (Z.max t (maxFrom 0 ts)).
  by rewrite <- maxFrom_max, Z.max_comm, maxFrom_max.
Qed.

(** One step of the reduction keeps the memo a valid date and takes the
maximum with a valid character date. *)
Lemma lastPlayedStep_spec (m : Z) (e : RawEntry) (d : JsDate) :
  lastPlayedStep (DateAt m) e = Ok d →
  d = DateAt (maxFrom m (characterTimes [e])).
Proof.
  destruct e as [raw|]; [|discriminate].
  unfold lastPlayedStep, characterTimes, isVaultRecord.
  destruct (bool_decide (raw_id raw = "vault")); [intros [= <-]; reflexivity|].
  destruct (raw_character raw) as [[[t|]]|]; try discriminate.
  - unfold date_ge, maxFrom. cbn [dateLastPlayed foldr].
    case_bool_decide; intros [= <-]; f_equal; lia.
  - intros [= <-]; reflexivity.
Qed.

Lemma characterTimes_cons (e : RawEntry) (l : list RawEntry) :
  characterTimes (e :: l) = characterTimes [e] ++ characterTimes l.
Proof.
  destruct e as [raw|]; simpl; [|done].
  destruct (isVaultRecord raw); [done|].
  by destruct (raw_character raw) as [[[t|]]|].
Qed.

Lemma maxFrom_app (a : Z) (l1 l2 : list Z) :
  maxFrom a (l1 ++ l2) = maxFrom (maxFrom a l1) l2.
Proof.
  unfold maxFrom. induction l1 as [|t l1 IH]; cbn [foldr app]; [done|].
  rewrite IH, (Z.max_comm t (foldr Z.max a l1)).
  symmetry. apply (maxFrom_max _ t l2).
Qed.

Lemma reduce_lastPlayed (rawStores : list RawEntry) (m : Z) (d : JsDate) :
  reduce lastPlayedStep rawStores (DateAt m) = Ok d →
  d = DateAt (maxFrom m (characterTimes rawStores)).
Proof.
  revert m. induction rawStores as [|e l IH]; intros m; simpl reduce.
  - by intros [= <-].
  - destruct (lastPlayedStep (DateAt m) e) as [d'|] eqn:Hstep; [|discriminate].
    apply lastPlayedStep_spec in Hstep as ->. simpl rbind. intros H.
    apply IH in H as ->. by rewrite (characterTimes_cons e l), maxFrom_app.
Qed.

Lemma reduce_wellFormed (rawStores : list RawEntry) (m : Z) :
  wellFormed rawStores = true →
  ∃ d, reduce lastPlayedStep rawStores (DateAt m) = Ok d.
Proof.
  revert m. induction rawStores as [|e l IH]; intros m; simpl.
  - eauto.
  - intros [He Hl]%andb_prop.
    assert (∃ m', lastPlayedStep (DateAt m) e = Ok (DateAt m')) as [m' ->].
    { destruct e as [raw|]; simpl in *; [|done].
      unfold isVaultRecord in He.
      destruct (bool_decide (raw_id raw = "vault")); [eauto|].
      simpl in He. apply bool_decide_eq_true in He as [c ->].
      destruct c as [[t|]]; simpl; [|eauto].
      case_bool_decide; eauto. }
    simpl. by apply IH.
Qed.

(** A null entry makes the reduction throw, whatever else the list holds. *)
Lemma reduce_null (rawStores : list RawEntry) (memo : JsDate) :
  None ∈ rawStores → reduce lastPlayedStep rawStores memo = Throw TypeError.
Proof.
  revert memo. induction rawStores as [|e l IH]; intros memo Hin.
  - by apply elem_of_nil in Hin.
  - simpl. destruct e as [raw|]; [|done].
    apply elem_of_cons in Hin as [|Hin]; [done|].
    simpl. destruct (bool_decide _); simpl; [by apply IH|].
    destruct (raw_character raw); simpl; [by apply IH|done].
Qed.

Lemma reduce_dropVault (rawStores : list RawEntry) (memo : JsDate) :
  reduce lastPlayedStep rawStores memo
  = reduce lastPlayedStep (dropVault rawStores) memo.
Proof.
  revert memo. induction rawStores as [|e l IH]; intros memo; [done|].
  unfold dropVault. destruct e as [raw|].
  - destruct (isVaultRecord raw) eqn:Hv.
    + rewrite filter_cons_False by (simpl; rewrite Hv; done).
      simpl. unfold isVaultRecord in Hv. rewrite Hv. simpl. apply IH.
    + rewrite filter_cons_True by (simpl; rewrite Hv; done).
      cbn [reduce]. destruct (lastPlayedStep memo (Some raw)); simpl; [apply IH|done].
  - by rewrite filter_cons_True.
Qed.

Lemma characterTimes_no_characters (rawStores : list RawEntry) :
  characterRecords rawStores = [] → characterTimes rawStores = [].
Proof.
  unfold characterRecords.
  induction rawStores as [|e l IH]; [done|].
  destruct e as [raw|]; simpl; [|done].
  destruct (isVaultRecord raw) eqn:Hv.
  - rewrite filter_cons_False by congruence. done.
  - rewrite filter_cons_True by done. done.
Qed.

Lemma reduce_throws_TypeError (rawStores : list RawEntry) (memo : JsDate) (e : Exn) :
  reduce lastPlayedStep rawStores memo = Throw e → e = TypeError.
Proof.
  revert memo. induction rawStores as [|x l IH]; intros memo; [done|].
  cbn [reduce]. destruct (lastPlayedStep memo x) as [d|e'] eqn:Hstep; simpl.
  - apply IH.
  - intros [= <-]. destruct x as [raw|]; simpl in Hstep; [|congruence].
    destruct (bool_decide _); [done|].
    destruct (raw_character raw); congruence.
Qed.

(** C2, as stated, fails: when every character date precedes the epoch the
result is the epoch, which is not the maximum of the character dates. *)
Lemma findLastPlayedDate_not_max_before_epoch :
  wellFormed preEpochRaws = true ∧
  maxOf (characterTimes preEpochRaws) = Some (-1000) ∧
  findLastPlayedDate preEpochRaws = Ok (DateAt 0) ∧
  findLastPlayedDate preEpochRaws ≠ Ok (DateAt (-1000)).
Proof. repeat split; done. Qed.

(** C2 (amended): on a list of records, [findLastPlayedDate] returns the
maximum valid [dateLastPlayed] among the character records whenever that
maximum is not before the epoch, and the epoch otherwise; the vault records
do not take part (the result is that of the list without them); and with no
character record the result is the epoch. *)
Theorem findLastPlayedDate_max_of_characters (rawStores : list RawEntry) :
  wellFormed rawStores = true →
  findLastPlayedDate rawStores
  = Ok (DateAt (match maxOf (characterTimes rawStores) with
                | Some m => if bool_decide (0 ≤ m) then m else 0
                | None => 0
                end)) ∧
  findLastPlayedDate rawStores = findLastPlayedDate (dropVault rawStores) ∧
  (characterRecords rawStores = [] → findLastPlayedDate rawStores = Ok epoch).
Proof.
  intros Hwf. unfold findLastPlayedDate, epoch.
  destruct (reduce_wellFormed rawStores 0 Hwf) as [d Hd].
  pose proof (reduce_lastPlayed _ _ _ Hd) as ->.
  split; [|split].
  - rewrite Hd. do 2 f_equal.
    destruct (characterTimes rawStores) as [|t ts]; [done|].
    rewrite maxFrom_floor. cbn [maxOf]. case_bool_decide; lia.
  - apply reduce_dropVault.
  - intros Hnone. by rewrite Hd, (characterTimes_no_characters _ Hnone).
Qed.

Lemma findLastPlayedDate_max_of_characters_witness :
  findLastPlayedDate twoCharacterRaws = Ok (DateAt 2000) ∧
  findLastPlayedDate [mkVaultRaw] = Ok epoch.
Proof.
  split.
  - exact (proj1 (findLastPlayedDate_max_of_characters twoCharacterRaws eq_refl)).
  - exact (proj2 (proj2 (findLastPlayedDate_max_of_characters [mkVaultRaw] eq_refl))
             eq_refl).
Defined.

(** C9: [findLastPlayedDate] never returns a date before the epoch.  On a
list of records it returns the maximum of the epoch and the valid character
dates; on any other list it throws and returns no date at all. *)
Theorem findLastPlayedDate_epoch_floor (rawStores : list RawEntry) :
  match findLastPlayedDate rawStores with
  | Ok d => wellFormed rawStores = true ∧
            ∃ t, d = DateAt t ∧ 0 ≤ t ∧ t = maxFrom 0 (characterTimes rawStores)
  | Throw e => wellFormed rawStores = false ∧ e = TypeError
  end.
Proof.
  unfold findLastPlayedDate, epoch.
  destruct (wellFormed rawStores) eqn:Hwf.
  - destruct (reduce_wellFormed rawStores 0 Hwf) as [d Hd]. rewrite Hd.
    split; [done|]. apply reduce_lastPlayed in Hd as ->.
    eexists; split; [done|]. split; [apply maxFrom_ge_start|done].
  - destruct (reduce lastPlayedStep rawStores (DateAt 0)) as [d|e] eqn:Hr.
    + exfalso. revert Hwf Hr. generalize 0.
      induction rawStores as [|x l IH]; intros m Hwf; [done|].
      cbn [reduce]. simpl in Hwf.
      destruct (lastPlayedStep (DateAt m) x) as [d'|] eqn:Hstep; [|done].
      pose proof (lastPlayedStep_spec _ _ _ Hstep) as ->. simpl.
      apply andb_false_iff in Hwf as [Hx|Hl]; [|by apply IH].
      exfalso. destruct x as [raw|]; [|done]. simpl in Hx, Hstep.
      unfold isVaultRecord in Hx.
      destruct (bool_decide (raw_id raw = "vault")); [done|].
      destruct (raw_character raw); [|done].
      simpl in Hx. discriminate Hx.
    + split; [done|]. by apply reduce_throws_TypeError in Hr.
Qed.

(** ** Library functions *)

Lemma groupBy_foldl_lookup {A} (key : A → Z) (l : list A)
    (acc : gmap Z (list A)) (k : Z) :
  foldl (λ acc x, <[key x := default [] (acc !! key x) ++ [x]]> acc) acc l !! k
  = match filter (λ x, key x = k) l with
    | [] => acc !! k
    | f => Some (default [] (acc !! k) ++ f)
    end.
Proof.
  revert acc. induction l as [|x l IH]; intros acc; [done|].
  cbn [foldl]. rewrite IH. destruct (decide (key x = k)) as [Hk|Hk].
  - rewrite filter_cons_True by done. rewrite Hk, lookup_insert_eq.
    destruct (filter _ l); [done|].
    simpl. by rewrite <- app_assoc.
  - rewrite filter_cons_False by done. by rewrite lookup_insert_ne.
Qed.

Lemma groupBy_lookup {A} (key : A → Z) (l : list A) (k : Z) :
  groupBy l key !! k = match filter (λ x, key x = k) l with
                       | [] => None
                       | f => Some f
                       end.
Proof.
  unfold groupBy. rewrite groupBy_foldl_lookup, lookup_empty.
  by destruct (filter _ l).
Qed.

Lemma fillMissing_lookup (catalog : list InventoryBucket)
    (m : gmap Z (list D1Item)) (k : Z) :
  fillMissing catalog m !! k
  = match m !! k with
    | Some v => Some v
    | None => if bool_decide (k ∈ hash <$> catalog) then Some [] else None
    end.
Proof.
  unfold fillMissing. revert m.
  induction catalog as [|b catalog IH]; intros m.
  - cbn [foldl]. destruct (m !! k); [done|].
    rewrite bool_decide_eq_false_2; [done|]. apply not_elem_of_nil.
  - cbn [foldl]. rewrite IH. rewrite fmap_cons.
    destruct (decide (k = hash b)) as [->|Hk].
    + rewrite (bool_decide_eq_true_2 (hash b ∈ hash b :: _)) by apply list_elem_of_here.
      destruct (m !! hash b) as [v|] eqn:Hm; [by rewrite Hm|].
      by rewrite lookup_insert_eq.
    + assert (bool_decide (k ∈ hash b :: (hash <$> catalog))
              = bool_decide (k ∈ hash <$> catalog)) as ->.
      { apply bool_decide_ext. rewrite elem_of_cons. tauto. }
      destruct (m !! hash b); [done|]. by rewrite lookup_insert_ne.
Qed.

Lemma insertBy_Permutation {A} (key : A → Z) (x : A) (l : list A) :
  insertBy key x l ≡ₚ x :: l.
Proof.
  induction l as [|y l IH]; [done|]. cbn [insertBy].
  case_bool_decide; [done|]. rewrite IH. apply Permutation_swap.
Qed.

Lemma sortBy_Permutation {A} (key : A → Z) (l : list A) : sortBy l key ≡ₚ l.
Proof.
  unfold sortBy. induction l as [|x l IH]; [done|].
  cbn [foldr]. by rewrite insertBy_Permutation, IH.
Qed.

(** [sortBy] is stable: elements that share their key keep their order. *)
Lemma filter_insertBy {A} (key : A → Z) (P : A → Prop) `{!∀ x, Decision (P x)}
    (x : A) (l : list A) :
  (P x → ∀ y, y ∈ l → P y → key y = key x) →
  filter P (insertBy key x l) = filter P (x :: l).
Proof.
  induction l as [|y l IH]; intros Hkey; [done|]. cbn [insertBy].
  case_bool_decide as Hle; [done|].
  rewrite filter_cons, IH
    by (intros Hx z Hz; apply Hkey; [done|by apply list_elem_of_further]).
  rewrite (filter_cons _ x (y :: l)), (filter_cons _ y l), (filter_cons _ x l).
  destruct (decide (P y)) as [Hy|Hy]; [|done].
  destruct (decide (P x)) as [Hx|Hx]; [|done].
  specialize (Hkey Hx y (list_elem_of_here _ _) Hy). lia.
Qed.

Lemma sortBy_filter_stable {A} (key : A → Z) (P : A → Prop)
    `{!∀ x, Decision (P x)} (l : list A) :
  (∀ x y, P x → P y → key x = key y) →
  filter P (sortBy l key) = filter P l.
Proof.
  intros Hkey. unfold sortBy. induction l as [|x l IH]; [done|].
  cbn [foldr]. rewrite filter_insertBy by (intros Hx y _ Hy; by apply Hkey).
  by rewrite !(filter_cons _ x), IH.
Qed.

(** An element not above any other goes to the front. *)
Lemma insertBy_front {A} (key : A → Z) (x : A) (l : list A) :
  (∀ y, y ∈ l → key x ≤ key y) → insertBy key x l = x :: l.
Proof.
  destruct l as [|y l]; [done|]. intros Hle. cbn [insertBy].
  rewrite bool_decide_eq_true_2; [done|]. apply Hle, list_elem_of_here.
Qed.

(** An element above a whole prefix is inserted behind it. *)
Lemma insertBy_behind {A} (key : A → Z) (x : A) (l1 l2 : list A) :
  (∀ y, y ∈ l1 → key y < key x) →
  insertBy key x (l1 ++ l2) = l1 ++ insertBy key x l2.
Proof.
  induction l1 as [|z l1 IH]; intros Hlt; [done|].
  cbn [app insertBy]. rewrite bool_decide_eq_false_2.
  - rewrite IH; [done|]. intros y Hy. apply Hlt. by apply list_elem_of_further.
  - specialize (Hlt z (list_elem_of_here _ _)). lia.
Qed.

(** A stable sort on keys among [-1], [0], [1], [2] lists the elements of
key [-1] first, then those of key [0], [1] and [2], each group in its
original order. *)
Lemma sortBy_four_keys {A} (key : A → Z) (l : list A) :
  (∀ x, x ∈ l → key x = -1 ∨ key x = 0 ∨ key x = 1 ∨ key x = 2) →
  sortBy l key = filter (λ x, key x = -1) l ++ filter (λ x, key x = 0) l
                 ++ filter (λ x, key x = 1) l ++ filter (λ x, key x = 2) l.
Proof.
  unfold sortBy. induction l as [|x l IH]; intros Hkeys; [done|].
  cbn [foldr]. rewrite IH by (intros y Hy; apply Hkeys; by apply list_elem_of_further).
  pose proof (Hkeys x (list_elem_of_here _ _)) as Hx.
  assert (∀ (c : Z) y, y ∈ filter (λ x, key x = c) l → key y = c) as Hf.
  { intros c y [? _]%list_elem_of_filter. done. }
  destruct Hx as [Hx|[Hx|[Hx|Hx]]].
  - rewrite (filter_cons_True (λ x, key x = -1)) by done.
    rewrite !(filter_cons_False _ x) by lia.
    apply insertBy_front. intros y Hy.
    rewrite !elem_of_app in Hy.
    destruct Hy as [Hy|[Hy|[Hy|Hy]]]; apply Hf in Hy; lia.
  - rewrite (filter_cons_True (λ x, key x = 0)) by done.
    rewrite !(filter_cons_False _ x) by lia.
    rewrite insertBy_behind by (intros y Hy%Hf; lia).
    f_equal. apply insertBy_front. intros y Hy.
    rewrite !elem_of_app in Hy.
    destruct Hy as [Hy|[Hy|Hy]]; apply Hf in Hy; lia.
  - rewrite (filter_cons_True (λ x, key x = 1)) by done.
    rewrite !(filter_cons_False _ x) by lia.
    rewrite insertBy_behind by (intros y Hy%Hf; lia). f_equal.
    rewrite insertBy_behind by (intros y Hy%Hf; lia). f_equal.
    apply insertBy_front. intros y Hy.
    rewrite !elem_of_app in Hy.
    destruct Hy as [Hy|Hy]; apply Hf in Hy; lia.
  - rewrite (filter_cons_True (λ x, key x = 2)) by done.
    rewrite !(filter_cons_False _ x) by lia.
    rewrite insertBy_behind by (intros y Hy%Hf; lia). f_equal.
    rewrite insertBy_behind by (intros y Hy%Hf; lia). f_equal.
    rewrite insertBy_behind by (intros y Hy%Hf; lia). f_equal.
    apply insertBy_front. intros y Hy%Hf. lia.
Qed.

(** The position of a vault bucket in [vaultBucketOrder]. *)
Lemma indexOf_vaultBucketOrder (h : Z) :
  (indexOf vaultBucketOrder h = 0 ↔ h = 4046403665) ∧
  (indexOf vaultBucketOrder h = 1 ↔ h = 3003523923) ∧
  (indexOf vaultBucketOrder h = 2 ↔ h = 138197802) ∧
  (indexOf vaultBucketOrder h = -1 ↔ h ∉ vaultBucketOrder) ∧
  (indexOf vaultBucketOrder h = -1 ∨ indexOf vaultBucketOrder h = 0 ∨
   indexOf vaultBucketOrder h = 1 ∨ indexOf vaultBucketOrder h = 2).
Proof.
  unfold indexOf, vaultBucketOrder. cbn [indexOf_from].
  rewrite !elem_of_cons, elem_of_nil.
  repeat case_bool_decide; subst; cbn; intuition (try lia; try congruence).
Qed.

(** ** [processStore]: the bucket mapping *)

Lemma finishStore_buckets_lookup (store : D1Store) (bs : InventoryBuckets)
    (its : list D1Item) (k : Z) :
  buckets (finishStore store bs its) !! k
  = match filter (λ i, hash (location i) = k) its with
    | [] => if bool_decide (k ∈ hash <$> catalogOf bs) then Some [] else None
    | f => Some f
    end.
Proof.
  cbn [finishStore buckets]. rewrite fillMissing_lookup, groupBy_lookup.
  by destruct (filter _ its).
Qed.

Lemma finishStore_buckets_catalog (store : D1Store) (bs : InventoryBuckets)
    (its : list D1Item) (b : InventoryBucket) :
  b ∈ catalogOf bs →
  buckets (finishStore store bs its) !! hash b
  = Some (filter (λ i, hash (location i) = hash b) its).
Proof.
  intros Hb. rewrite finishStore_buckets_lookup.
  destruct (filter _ its); [|done].
  rewrite bool_decide_eq_true_2; [done|]. by apply list_elem_of_fmap_2.
Qed.

Lemma finishStore_buckets_dom (store : D1Store) (bs : InventoryBuckets)
    (its : list D1Item) :
  dom (buckets (finishStore store bs its))
  = list_to_set (hash <$> catalogOf bs)
    ∪ list_to_set ((λ i, hash (location i)) <$> its).
Proof.
  apply set_eq. intros k.
  rewrite elem_of_dom, finishStore_buckets_lookup, elem_of_union,
    !elem_of_list_to_set, (list_elem_of_fmap _ its).
  destruct (filter _ its) as [|i f] eqn:Hf.
  - case_bool_decide as Hk.
    + split; [by left|by eauto].
    + split; [by intros []|]. intros [?|(i & -> & Hi)]; [done|].
      exfalso. by apply (filter_nil_not_elem_of _ _ i Hf).
  - split; [|by eauto]. intros _. right. exists i.
    assert (i ∈ filter (λ i, hash (location i) = k) its) as Hi
      by (rewrite Hf; apply list_elem_of_here).
    apply list_elem_of_filter in Hi as [-> Hi]. done.
Qed.

(** What [processStore] resolves with is [finishStore] of what the factory
made. *)
Lemma processStore_resolved {Defs RawItem : Type}
    (makeVault : RawStore → Currencies → Made)
    (makeCharacter : RawStore → Defs → JsDate → Currencies → Made)
    (processItems : D1Store → list RawItem → Defs → InventoryBuckets
                    → Result (list D1Item))
    (raw : RawEntry) (defs : Defs) (bs : InventoryBuckets)
    (currencies : Currencies) (lastPlayedDate : JsDate) (store : D1Store) :
  resolved_store (processStore makeVault makeCharacter processItems
                    raw defs bs currencies lastPlayedDate) = Some store →
  ∃ made its, store = finishStore made bs its ∧ isVault store = isVault made
              ∧ items store = its.
Proof.
  unfold processStore, resolved_store. destruct raw as [raw|]; [|done].
  destruct (if bool_decide _ then _ else _) as [[[made rawItems]|e] cur']; [|done].
  destruct (processItems made rawItems defs bs) as [its|e]; [|done].
  simpl. intros [= <-]. by exists made, its.
Qed.

(** C5, as stated, fails: an item located in a bucket outside the catalog
adds a key of its own, so the mapping of a catalog of seven buckets can have
eight keys. *)
Lemma processStore_buckets_stray_key :
  ∃ store,
    resolved_store (sampleProcessStore strayItemVault () sampleBuckets [] epoch)
    = Some store ∧
    length (catalogOf sampleBuckets) = 7%nat ∧
    size (buckets store) = 8%nat ∧
    is_Some (buckets store !! 424242).
Proof.
  eexists. split; [reflexivity|]. split; [reflexivity|].
  split; [by vm_compute|]. eexists. by vm_compute.
Qed.

(** C5 (amended): in every store that [processStore] resolves with, each
catalog bucket is a key of the bucket mapping, mapped to the store's items
located in it (the empty list when there are none); the keys are the catalog
hashes together with the hashes of the items' locations; so the mapping has
exactly as many keys as the catalog has buckets when the catalog hashes are
distinct and every item is located in a catalog bucket. *)
Theorem processStore_buckets_cover_catalog {Defs RawItem : Type}
    (makeVault : RawStore → Currencies → Made)
    (makeCharacter : RawStore → Defs → JsDate → Currencies → Made)
    (processItems : D1Store → list RawItem → Defs → InventoryBuckets
                    → Result (list D1Item))
    (raw : RawEntry) (defs : Defs) (bs : InventoryBuckets)
    (currencies : Currencies) (lastPlayedDate : JsDate) (store : D1Store) :
  resolved_store (processStore makeVault makeCharacter processItems
                    raw defs bs currencies lastPlayedDate) = Some store →
  (∀ b, b ∈ catalogOf bs →
        buckets store !! hash b
        = Some (filter (λ i, hash (location i) = hash b) (items store))) ∧
  dom (buckets store)
  = list_to_set (hash <$> catalogOf bs)
    ∪ list_to_set ((λ i, hash (location i)) <$> items store) ∧
  (NoDup (hash <$> catalogOf bs) →
   Forall (λ i, hash (location i) ∈ hash <$> catalogOf bs) (items store) →
   size (buckets store) = length (catalogOf bs)).
Proof.
  intros (made & its & -> & _ & Hits)%processStore_resolved.
  cbn [items finishStore] in *. split; [|split].
  - intros b Hb. by apply finishStore_buckets_catalog.
  - apply finishStore_buckets_dom.
  - intros Hnodup Hin.
    rewrite <- size_dom, finishStore_buckets_dom.
    assert (list_to_set ((λ i, hash (location i)) <$> its)
            ⊆@{gset Z} list_to_set (hash <$> catalogOf bs)) as Hsub.
    { intros k. rewrite !elem_of_list_to_set, list_elem_of_fmap.
      intros (i & -> & Hi). by apply (proj1 (Forall_forall _ _) Hin). }
    rewrite (union_comm_L (list_to_set (hash <$> catalogOf bs))).
    rewrite (subseteq_union_1_L _ _ Hsub).
    rewrite size_list_to_set by done. by rewrite length_fmap.
Qed.

Lemma processStore_buckets_cover_catalog_witness :
  ∃ store,
    resolved_store (sampleProcessStore tidyVault () sampleBuckets [] epoch)
    = Some store ∧
    size (buckets store) = 7%nat.
Proof.
  eexists. split; [reflexivity|].
  apply (processStore_buckets_cover_catalog
           sampleMakeVault sampleMakeCharacter sampleProcessItems
           tidyVault () sampleBuckets [] epoch _ eq_refl).
  - refine (bool_decide_unpack _ _). by vm_compute.
  - refine (bool_decide_unpack _ _). by vm_compute.
Defined.

(** ** [processStore]: the order of the vault counts *)

Lemma withVaultBucket_elem_of (catalog : list InventoryBucket)
    (b vb : InventoryBucket) :
  (b, vb) ∈ withVaultBucket catalog ↔ b ∈ catalog ∧ vaultBucket b = Some vb.
Proof.
  unfold withVaultBucket. rewrite list_elem_of_omap. split.
  - intros (b' & Hb' & Heq). destruct (vaultBucket b') eqn:Hvb; [|done].
    simpl in Heq. by simplify_eq.
  - intros [Hb Hvb]. exists b. by rewrite Hvb.
Qed.

(** C3, as stated, fails: a bucket whose vault bucket is not one of the
three listed is visited before them, not after. *)
Lemma vaultIteration_others_first :
  vaultIteration sampleBuckets
  = [(bounties, otherVault); (primary, weaponsVault); (special, weaponsVault);
     (helmet, armorVault); (consumables, generalVault);
     (materials, generalVault)] ∧
  priorityThenOthers sampleBuckets
  = [(primary, weaponsVault); (special, weaponsVault); (helmet, armorVault);
     (consumables, generalVault); (materials, generalVault);
     (bounties, otherVault)] ∧
  vaultIteration sampleBuckets ≠ priorityThenOthers sampleBuckets.
Proof.
  assert (vaultIteration sampleBuckets
          = [(bounties, otherVault); (primary, weaponsVault);
             (special, weaponsVault); (helmet, armorVault);
             (consumables, generalVault); (materials, generalVault)]) as H1
    by (by vm_compute).
  assert (priorityThenOthers sampleBuckets
          = [(primary, weaponsVault); (special, weaponsVault);
             (helmet, armorVault); (consumables, generalVault);
             (materials, generalVault); (bounties, otherVault)]) as H2
    by (by vm_compute).
  split; [done|]. split; [done|]. rewrite H1, H2. discriminate.
Qed.

(** C3 (amended): the vault counts visit the buckets that have a vault
bucket in ascending order of the position of that vault bucket's hash in
[Weapons, Armor, General], where a hash that is not listed has position -1:
first the buckets of every other vault bucket, then those of Weapons, of
Armor and of General, each group in catalog order. *)
Theorem vaultIteration_order (bs : InventoryBuckets) :
  let declaring := withVaultBucket (catalogOf bs) in
  (∀ b vb, (b, vb) ∈ declaring ↔ b ∈ catalogOf bs ∧ vaultBucket b = Some vb) ∧
  vaultIteration bs
  = filter (λ p, hash p.2 ∉ vaultBucketOrder) declaring
    ++ filter (λ p, hash p.2 = 4046403665) declaring
    ++ filter (λ p, hash p.2 = 3003523923) declaring
    ++ filter (λ p, hash p.2 = 138197802) declaring.
Proof.
  intros declaring. split; [apply withVaultBucket_elem_of|].
  unfold vaultIteration. fold (catalogOf bs). fold declaring.
  rewrite sortBy_four_keys.
  - repeat f_equal; apply list_filter_iff; intros p;
      pose proof (indexOf_vaultBucketOrder (hash p.2)); tauto.
  - intros p _. apply indexOf_vaultBucketOrder.
Qed.

(** ** [processStore]: the vault counts *)

Lemma countBucket_foldl_lookup (sb : gmap Z (list D1Item))
    (visited : list (InventoryBucket * InventoryBucket))
    (acc : gmap Z VaultCount) (X : Z) :
  foldl (countBucket sb) acc visited !! X
  = match filter (λ p, hash p.2 = X) visited with
    | [] => acc !! X
    | p :: f =>
        let entry := default {| count := 0; bucket := representative p |}
                             (acc !! X) in
        Some {| count := count entry
                         + Z.of_nat (sum_list_with
                                       (λ q, length (default [] (sb !! hash q.1)))
                                       (p :: f));
                bucket := bucket entry |}
    end.
Proof.
  revert acc. induction visited as [|p visited IH]; intros acc; [done|].
  cbn [foldl]. rewrite IH. clear IH.
  destruct (decide (hash p.2 = X)) as [Hp|Hp].
  - rewrite filter_cons_True by done.
    unfold countBucket at 1 2. rewrite Hp, lookup_insert_eq.
    fold (representative p).
    destruct (filter _ visited) as [|q f].
    + cbn. do 2 f_equal. lia.
    + cbn -[Z.of_nat Z.add]. do 2 f_equal. lia.
  - rewrite filter_cons_False by done.
    unfold countBucket at 1 2. rewrite lookup_insert_ne by done. done.
Qed.

Lemma sum_list_with_agree {A} (f g : A → nat) (l : list A) :
  (∀ x, x ∈ l → f x = g x) → sum_list_with f l = sum_list_with g l.
Proof.
  induction l as [|x l IH]; intros Hfg; [done|]. cbn [sum_list_with].
  rewrite (Hfg x) by apply list_elem_of_here.
  rewrite IH; [done|]. intros y Hy. by apply Hfg, list_elem_of_further.
Qed.

(** The buckets of one vault bucket are visited in catalog order. *)
Lemma vaultIteration_declaring (bs : InventoryBuckets) (X : Z) :
  filter (λ p, hash p.2 = X) (vaultIteration bs) = declaring bs X.
Proof.
  unfold vaultIteration, declaring. fold (catalogOf bs).
  apply sortBy_filter_stable. intros p q Hp Hq. by rewrite Hp, Hq.
Qed.


(** X6: the sort does not change the counts: visiting the buckets in catalog
order gives the same [vaultCounts]. *)
Lemma computeVaultCounts_unsorted (bs : InventoryBuckets)
    (sb : gmap Z (list D1Item)) :
  computeVaultCounts bs sb
  = foldl (countBucket sb) ∅ (withVaultBucket (catalogOf bs)).
Proof.
  apply map_eq. intros X. unfold computeVaultCounts.
  by rewrite !countBucket_foldl_lookup, vaultIteration_declaring.
Qed.




(** ** [processStore]: null records and the vault path *)

(** X5: a null entry is converted to [undefined] without touching the
currencies, and [compact] drops it: had the cycle reached the conversions,
its stores would be those of the list without the null entries. *)
Lemma mapProcessStore_drops_null {Defs RawItem : Type}
    (makeVault : RawStore → Currencies → Made)
    (makeCharacter : RawStore → Defs → JsDate → Currencies → Made)
    (processItems : D1Store → list RawItem → Defs → InventoryBuckets
                    → Result (list D1Item))
    (rawStores : list RawEntry) (defs : Defs) (bs : InventoryBuckets)
    (currencies : Currencies) (d : JsDate) :
  let convert l :=
    mapProcessStore makeVault makeCharacter processItems l defs bs currencies d in
  rbind (convert rawStores).1 (λ ps, Ok (compact ps))
  = rbind (convert (filter (λ e, is_Some e) rawStores)).1 (λ ps, Ok (compact ps))
  ∧ (convert rawStores).2 = (convert (filter (λ e, is_Some e) rawStores)).2.
Proof.
  cbn zeta. unfold RawEntry in *. revert currencies.
  induction rawStores as [|[raw|] rest IH]; intros currencies; [done| |].
  - rewrite filter_cons_True by eauto. cbn [mapProcessStore].
    destruct (processStore _ _ _ (Some raw) _ _ _ _) as [[p|e] cur']; [|done].
    specialize (IH cur').
    remember (mapProcessStore makeVault makeCharacter processItems
                rest defs bs cur' d) as all eqn:Hall.
    remember (mapProcessStore makeVault makeCharacter processItems
                (filter (λ e, is_Some e) rest) defs bs cur' d) as some eqn:Hsome.
    clear Hall Hsome.
    destruct all as [[ps|e] cur2], some as [[ps'|e'] cur3], IH as [IH1 IH2];
      cbn in *; simplify_eq; try done.
    split; [|done]. unfold compact in *. cbn. by rewrite IH1.
  - rewrite filter_cons_False by (by intros []).
    cbn [mapProcessStore processStore].
    specialize (IH currencies).
    remember (mapProcessStore makeVault makeCharacter processItems
                rest defs bs currencies d) as all eqn:Hall.
    remember (mapProcessStore makeVault makeCharacter processItems
                (filter (λ e, is_Some e) rest) defs bs currencies d) as some
      eqn:Hsome.
    clear Hall Hsome.
    destruct all as [[ps|e] cur2], some as [[ps'|e'] cur3], IH as [IH1 IH2];
      cbn in *; simplify_eq; try done.
    split; [|done]. fold (compact ps). by rewrite IH1.
Qed.

(** C10: for a vault-tagged record, [processStore] gives the same result
(store promise and currencies) whatever [lastPlayedDate] it is passed. *)
Theorem processStore_vault_ignores_lastPlayedDate {Defs RawItem : Type}
    (makeVault : RawStore → Currencies → Made)
    (makeCharacter : RawStore → Defs → JsDate → Currencies → Made)
    (processItems : D1Store → list RawItem → Defs → InventoryBuckets
                    → Result (list D1Item))
    (raw : RawStore) (defs : Defs) (bs : InventoryBuckets)
    (currencies : Currencies) (d1 d2 : JsDate) :
  raw_id raw = "vault" →
  processStore makeVault makeCharacter processItems
    (Some raw) defs bs currencies d1
  = processStore makeVault makeCharacter processItems
      (Some raw) defs bs currencies d2.
Proof.
  intros Hvault. unfold processStore.
  by rewrite (bool_decide_eq_true_2 _ Hvault).
Qed.

Lemma processStore_vault_ignores_lastPlayedDate_witness :
  sampleProcessStore stockedVault () sampleBuckets [] (DateAt 1000)
  = sampleProcessStore stockedVault () sampleBuckets [] (DateAt 2000).
Proof.
  apply (processStore_vault_ignores_lastPlayedDate
           sampleMakeVault sampleMakeCharacter sampleProcessItems
           (rawWith "vault" _) () sampleBuckets [] (DateAt 1000) (DateAt 2000)).
  reflexivity.
Defined.

(** For a character record the date does reach the store. *)
Example processStore_character_reads_lastPlayedDate :
  sampleProcessStore armedHunter () sampleBuckets [] (DateAt 1000)
  ≠ sampleProcessStore armedHunter () sampleBuckets [] (DateAt 2000).
Proof. by vm_compute. Qed.

(** ** [loadStores] *)

Section LoadStores.

Context {Defs RawItem AppState Account : Type}.

Variable makeVault : RawStore → Currencies → Made (RawItem := RawItem).
Variable makeCharacter : RawStore → Defs → JsDate → Currencies → Made (RawItem := RawItem).
Variable processItems :
  D1Store → list RawItem → Defs → InventoryBuckets → Result (list D1Item).
Variable currentAccountSelector : AppState → option Account.
Variable storesSelector : AppState → list D1Store.
Variable bucketsSelector : AppState → InventoryBuckets.
Variable reducer : Action → AppState → AppState.
Variable getPlatforms : AppState → Result () * AppState.
Variable getDefinitions : AppState → Result Defs * AppState.
Variable loadNewItems : Account → AppState → Result () * AppState.
Variable getStores : Account → AppState → Result (list RawEntry) * AppState.
Variable fetchRatings : list D1Store → AppState → Result () * AppState.
Variable cleanInfos : list D1Store → AppState → Result () * AppState.
Variable reviewsEnabled : bool.

Local Abbreviation try_block :=
  (loadStores_try makeVault makeCharacter processItems
     currentAccountSelector bucketsSelector reducer
     getPlatforms getDefinitions loadNewItems getStores
     fetchRatings cleanInfos reviewsEnabled).

Local Abbreviation catch_block := (loadStores_catch storesSelector reducer).

Local Abbreviation load :=
  (loadStores makeVault makeCharacter processItems
     currentAccountSelector storesSelector bucketsSelector reducer
     getPlatforms getDefinitions loadNewItems getStores
     fetchRatings cleanInfos reviewsEnabled).

(** What the [catch] block does, by whether a store set is published. *)
Lemma loadStores_catch_spec (e : Exn) (s : AppState) :
  catch_block e s
  = if bool_decide (storesSelector s ≠ [])
    then (Ok None, s,
          [ConsoleError e; ReportException "D1StoresService" e;
           ShowNotification e])
    else (Ok None, reducer (error e) s,
          [ConsoleError e; ReportException "D1StoresService" e;
           Dispatch (error e)]).
Proof.
  unfold loadStores_catch, bind, emit, select, dispatch, ret.
  destruct (storesSelector s) as [|st sts]; cbn [length].
  - rewrite bool_decide_eq_false_2 by lia.
    rewrite bool_decide_eq_false_2 by (intros H; by apply H). done.
  - rewrite bool_decide_eq_true_2 by lia.
    rewrite bool_decide_eq_true_2 by done. done.
Qed.

(** The [try] block dispatches a plain action only as its last step: when
it throws it has dispatched none, and when it returns stores it has
dispatched exactly their [update]. *)
Lemma loadStores_try_dispatched (s s' : AppState)
    (r : Result (option (list D1Store))) (evs : list Event) :
  try_block s = (r, s', evs) →
  match r with
  | Throw _ | Ok None => dispatched evs = []
  | Ok (Some stores) => dispatched evs = [update stores]
  end.
Proof.
  unfold loadStores_try, Promise_all3, bind, emit, select, call, dispatch,
    liftResult, ret.
  intros H.
  repeat (case_match; simplify_eq/=); try done.
Qed.

(** C1: an exception thrown anywhere in the [try] block is caught: the cycle
resolves with [undefined] and does not reject.  When the published store set
is not empty the cycle only logs, reports and shows a notification: the
application state is the one the exception left, and the cycle has
dispatched nothing.  When no store set is published it dispatches the
[error] action instead and shows no notification.  A [try] block that
returns is passed through unchanged. *)
Theorem loadStores_swallows_failure (s : AppState) :
  match try_block s with
  | (Ok r, s', evs) => load s = (Ok r, s', evs)
  | (Throw e, s', evs) =>
      dispatched evs = [] ∧
      if bool_decide (storesSelector s' ≠ [])
      then load s
           = (Ok None, s',
              evs ++ [ConsoleError e; ReportException "D1StoresService" e;
                      ShowNotification e])
      else load s
           = (Ok None, reducer (error e) s',
              evs ++ [ConsoleError e; ReportException "D1StoresService" e;
                      Dispatch (error e)])
  end.
Proof.
  unfold loadStores, tryCatch.
  destruct (try_block s) as [[[r|e] s'] evs] eqn:Htry; [done|].
  split; [exact (loadStores_try_dispatched _ _ _ _ Htry)|].
  rewrite loadStores_catch_spec. by case_bool_decide.
Qed.

(** C6: with a null entry among the raw records, [processStore] would return
[undefined] for it, but the cycle never gets there: [findLastPlayedDate]
throws a [TypeError] first, nothing is published, and the failure is
notified or dispatched as an error. *)
Theorem loadStores_null_record_fails (s s1 s2 s3 : AppState)
    (account : Account) (defs : Defs) (rawStores : list RawEntry) :
  currentAccountSelector s = Some account →
  getDefinitions s = (Ok defs, s1) →
  loadNewItems account s1 = (Ok (), s2) →
  getStores account s2 = (Ok rawStores, s3) →
  None ∈ rawStores →
  (∀ bs currencies d,
     processStore makeVault makeCharacter processItems None defs bs currencies d
     = (Ok None, currencies)) ∧
  try_block s = (Throw TypeError, s3, [ResetIdTracker]) ∧
  load s
  = (Ok None,
     if bool_decide (storesSelector s3 ≠ []) then s3
     else reducer (error TypeError) s3,
     [ResetIdTracker; ConsoleError TypeError;
      ReportException "D1StoresService" TypeError;
      if bool_decide (storesSelector s3 ≠ []) then ShowNotification TypeError
      else Dispatch (error TypeError)]).
Proof.
  intros Hacc Hdefs Hnew Hraw Hnull.
  assert (try_block s = (Throw TypeError, s3, [ResetIdTracker])) as Htry.
  { unfold loadStores_try, bind, select. rewrite Hacc. cbn.
    unfold Promise_all3, call. rewrite Hdefs, Hnew, Hraw. cbn.
    unfold findLastPlayedDate. by rewrite (reduce_null _ _ Hnull). }
  split; [done|]. split; [done|].
  unfold loadStores, tryCatch. rewrite Htry, loadStores_catch_spec.
  by case_bool_decide.
Qed.

End LoadStores.

Lemma loadStores_null_record_fails_witness :
  sampleLoadStores (appWith [] apiNullRecord)
  = (Ok None,
     sampleReducer (error TypeError) (appWith [] apiNullRecord),
     [ResetIdTracker; ConsoleError TypeError;
      ReportException "D1StoresService" TypeError;
      Dispatch (error TypeError)]).
Proof.
  refine (proj2 (proj2 (loadStores_null_record_fails
    sampleMakeVault sampleMakeCharacter sampleProcessItems
    app_account app_stores (λ _, sampleBuckets) sampleReducer
    (sampleIdle ()) (sampleIdle ()) (λ _, sampleIdle ())
    (λ _ s, (app_api s, s)) (λ _, sampleIdle ()) (λ _, sampleIdle ()) false
    (appWith [] apiNullRecord) _ _ _ "player" () _
    eq_refl eq_refl eq_refl eq_refl _))).
  unfold armedHunter, stockedVault. apply list_elem_of_further, list_elem_of_here.
Defined.

(** The sample application: a rejecting API on a first visit leaves the
error state; with stores already published it leaves the state as it was;
and a working API publishes. *)
Example loadStores_first_visit_api_down :
  sampleLoadStores (appWith [] apiDown)
  = (Ok None,
     {| app_account := Some "player"; app_stores := [];
        app_error := Some (ExternalError "503"); app_api := apiDown |},
     [ResetIdTracker; ConsoleError (ExternalError "503");
      ReportException "D1StoresService" (ExternalError "503");
      Dispatch (error (ExternalError "503"))]).
Proof. reflexivity. Qed.

Example loadStores_later_visit_api_down :
  sampleLoadStores (appWith oldStores apiDown)
  = (Ok None, appWith oldStores apiDown,
     [ResetIdTracker; ConsoleError (ExternalError "503");
      ReportException "D1StoresService" (ExternalError "503");
      ShowNotification (ExternalError "503")]).
Proof. reflexivity. Qed.

Example loadStores_api_fine :
  ∃ stores s' evs,
    sampleLoadStores (appWith [] apiFine) = (Ok (Some stores), s', evs) ∧
    id <$> stores = ["hunter"; "vault"] ∧
    app_stores s' = stores ∧
    dispatched evs = [update stores].
Proof. do 3 eexists. split; [reflexivity|]. by vm_compute. Qed.

(** ** The store service *)

Section ServiceProperties.

Context {Account : Type}.
Implicit Types (s : Service (Account := Account)) (o : Occurrence (Account := Account)).

Lemma deliverAll_resolved (em : Emission) (ts : list Taker) (p : nat) (em' : Emission) :
  (p, em') ∈ (deliverAll em ts).2 → em' = em ∧ ∃ t, t ∈ ts ∧ promise t = p.
Proof.
  induction ts as [|t ts IH]; cbn [deliverAll].
  - intros []%elem_of_nil.
  - destruct (deliverAll em ts) as [keep done'] eqn:Hd. cbn [snd] in IH.
    unfold deliver. case_bool_decide; cbn [snd].
    + intros [[= -> ->]|Hin]%elem_of_cons.
      * split; [done|]. exists t. split; [apply list_elem_of_here|done].
      * destruct (IH Hin) as [-> (t' & Ht' & Hp)]. split; [done|].
        exists t'. split; [by apply list_elem_of_further|done].
    + intros Hin. destruct (IH Hin) as [-> (t' & Ht' & Hp)]. split; [done|].
      exists t'. split; [by apply list_elem_of_further|done].
Qed.

Lemma deliverAll_takers (em : Emission) (ts : list Taker) (t' : Taker) :
  t' ∈ (deliverAll em ts).1 → ∃ t, t ∈ ts ∧ promise t' = promise t.
Proof.
  induction ts as [|t ts IH]; cbn [deliverAll].
  - intros []%elem_of_nil.
  - destruct (deliverAll em ts) as [keep done'] eqn:Hd. cbn [fst] in IH.
    unfold deliver. case_bool_decide; cbn [fst].
    + intros (t0 & Ht0 & Hp)%IH. exists t0.
      split; [by apply list_elem_of_further|done].
    + intros [->|(t0 & Ht0 & Hp)%IH]%elem_of_cons.
      * exists t. split; [apply list_elem_of_here|done].
      * exists t0. split; [by apply list_elem_of_further|done].
Qed.

(** A taker that has seen one value resolves with the next. *)
Lemma deliverAll_second (em : Emission) (ts : list Taker) (t : Taker) :
  t ∈ ts → seen t = 1%nat → (promise t, em) ∈ (deliverAll em ts).2.
Proof.
  induction ts as [|t0 ts IH]; [by intros []%elem_of_nil|].
  intros Hin Hseen. cbn [deliverAll].
  destruct (deliverAll em ts) as [keep done'] eqn:Hd. cbn [snd] in IH.
  apply elem_of_cons in Hin as [<-|Hin].
  - unfold deliver. rewrite Hseen. cbn. apply list_elem_of_here.
  - specialize (IH Hin Hseen). unfold deliver.
    case_bool_decide; cbn [snd]; [by apply list_elem_of_further|done].
Qed.

Lemma consistent_StoreService : consistent (StoreService (Account := Account)).
Proof.
  unfold consistent. cbn. repeat split; try done.
  - intros p em []%elem_of_nil.
  - intros t []%elem_of_nil.
Qed.

Lemma consistent_source_next s :
  connection s = true → consistent s → consistent (source_next s).
Proof.
  intros Hc (H1 & H2 & H3 & H4 & H5 & H6). unfold consistent. cbn.
  repeat split; try done.
  - congruence.
  - intros k [= <-]. lia.
  - intros em Hem. specialize (H3 em Hem). lia.
Qed.

Lemma consistent_accountStream_next account s :
  consistent s → consistent (accountStream_next account s).
Proof.
  intros Hs. unfold accountStream_next.
  destruct (connection s) eqn:Hc.
  - apply consistent_source_next; [done|].
    destruct Hs as (H1 & H2 & H3 & H4 & H5 & H6). rewrite Hc in H6.
    unfold consistent. cbn. by repeat split.
  - destruct Hs as (H1 & H2 & H3 & H4 & H5 & H6). rewrite Hc in H6.
    unfold consistent. cbn. repeat split; auto.
Qed.

Lemma consistent_storesStream_connect s :
  consistent s → consistent (storesStream_connect s).
Proof.
  intros Hs. unfold storesStream_connect.
  destruct (connection s) eqn:Hc; [done|].
  apply consistent_source_next; [done|].
  destruct Hs as (H1 & H2 & H3 & H4 & H5 & H6). unfold consistent. cbn.
  rewrite Hc in H6. rewrite H6. repeat split; try done.
Qed.

Lemma consistent_storesStream_take2 s :
  consistent s → consistent (storesStream_take2 s).
Proof.
  intros (H1 & H2 & H3 & H4 & H5 & H6). unfold consistent. cbn.
  repeat split; try done.
  - intros p em Hin. specialize (H4 p em Hin). lia.
  - intros t [Hin|Hin%list_elem_of_singleton]%elem_of_app.
    + specialize (H5 t Hin). lia.
    + subst t. cbn. lia.
Qed.

Lemma consistent_forceReloadTrigger_next s :
  consistent s → consistent (forceReloadTrigger_next s).
Proof.
  intros Hs. unfold forceReloadTrigger_next.
  destruct (connection s) eqn:Hc; [|done].
  by apply consistent_source_next.
Qed.

Lemma consistent_settle k v s : consistent s → consistent (settle k v s).
Proof.
  intros Hs. unfold settle. case_bool_decide as Hk; [|done].
  destruct Hs as (H1 & H2 & H3 & H4 & H5 & H6).
  unfold storesStream_emit. cbn.
  destruct (deliverAll _ (takers s)) as [keep done'] eqn:Hd.
  unfold consistent. cbn. repeat split; try done.
  - intros em [= <-]. cbn. by apply H2.
  - intros p em [Hin|Hin]%elem_of_app; [by apply (H4 p em)|].
    pose proof (deliverAll_resolved {| run := k; value := v |} (takers s) p em) as Hr.
    rewrite Hd in Hr. destruct (Hr Hin) as [_ (t & Ht & <-)]. by apply H5.
  - intros t Hin.
    pose proof (deliverAll_takers {| run := k; value := v |} (takers s) t) as Hr.
    rewrite Hd in Hr. destruct (Hr Hin) as (t0 & Ht0 & ->). by apply H5.
Qed.

Lemma consistent_occur s o : consistent s → consistent (occur s o).
Proof.
  intros Hs. destruct o as [account| |k v]; cbn [occur].
  - by apply consistent_storesStream_connect, consistent_accountStream_next.
  - by apply consistent_forceReloadTrigger_next, consistent_storesStream_take2.
  - by apply consistent_settle.
Qed.

Lemma consistent_exec s history : consistent s → consistent (exec s history).
Proof.
  revert s. induction history as [|o history IH]; intros s Hs; [done|].
  cbn. by apply IH, consistent_occur.
Qed.

Lemma reachable_consistent s : reachable s → consistent s.
Proof. intros [history ->]. apply consistent_exec, consistent_StoreService. Qed.

(** From a state in which every run listened to has rank at least [N], a
value resolves a promise only if it comes from a run of rank at least [N]
that settles in the occurrence at hand. *)
Lemma occur_later_runs (N : nat) s o :
  (∀ k, inner s = Some k → (N ≤ k)%nat) → (N ≤ runs s)%nat →
  (∀ k, inner (occur s o) = Some k → (N ≤ k)%nat) ∧
  (N ≤ runs (occur s o))%nat ∧
  ∀ p em, (p, em) ∈ resolved (occur s o) →
          (p, em) ∈ resolved s ∨ ((N ≤ run em)%nat ∧ o = Settle (run em) (value em)).
Proof.
  intros Hinner Hruns. destruct o as [account| |k v]; cbn [occur].
  - unfold getStoresStream, accountStream_next, storesStream_connect.
    destruct (connection s) eqn:Hc; cbn; rewrite ?Hc; cbn.
    + repeat split; [intros k [= <-]; lia|lia|auto].
    + repeat split; [intros k [= <-]; lia|lia|auto].
  - unfold reloadStores, forceReloadTrigger_next. cbn.
    destruct (connection s) eqn:Hc; cbn.
    + repeat split; [intros k [= <-]; lia|lia|auto].
    + repeat split; [done|lia|auto].
  - unfold settle. case_bool_decide as Hk; [|by auto].
    unfold storesStream_emit. cbn.
    destruct (deliverAll _ (takers s)) as [keep done'] eqn:Hd. cbn.
    repeat split; [done|lia|].
    intros p em [Hin|Hin]%elem_of_app; [by left|right].
    pose proof (deliverAll_resolved {| run := k; value := v |} (takers s) p em) as Hr.
    rewrite Hd in Hr. destruct (Hr Hin) as [-> _]. cbn.
    split; [by apply Hinner|done].
Qed.

Lemma exec_later_runs (N : nat) s history p em :
  (∀ k, inner s = Some k → (N ≤ k)%nat) → (N ≤ runs s)%nat →
  (p, em) ∈ resolved (exec s history) →
  (p, em) ∈ resolved s
  ∨ ((N ≤ run em)%nat ∧ Settle (run em) (value em) ∈ history).
Proof.
  revert s. induction history as [|o history IH]; intros s Hinner Hruns.
  - by left.
  - cbn [exec foldl]. fold (exec (occur s o) history).
    destruct (occur_later_runs N s o Hinner Hruns) as (Hinner' & Hruns' & Hres).
    intros [Hin|[Hle Hin]]%(IH _ Hinner' Hruns').
    + destruct (Hres _ _ Hin) as [?|[Hle ->]]; [by left|right].
      split; [done|apply list_elem_of_here].
    + right. split; [done|by apply list_elem_of_further].
Qed.

(** X16: the promise that [reloadStores] returns, whenever it resolves,
resolves with a value that a pipeline run started at or after the call
delivered after the call, and never with the value the stream had buffered
before the call; the value may be a store set or [undefined].  With a
buffered value and a connected stream, the promise resolves as soon as the
run that the call starts settles. *)
Theorem reloadStores_resolves_with_later_result s :
  reachable s →
  (∀ history em,
     (promises s, em) ∈ resolved (exec (reloadStores s) history) →
     (runs s ≤ run em)%nat ∧
     Settle (run em) (value em) ∈ history ∧
     replay s ≠ Some em) ∧
  (∀ v, connection s = true → is_Some (replay s) →
        (promises s, {| run := runs s; value := v |})
        ∈ resolved (settle (runs s) v (reloadStores s))).
Proof.
  intros Hs%reachable_consistent.
  destruct Hs as (H1 & H2 & H3 & H4 & H5 & H6). split.
  - intros history em Hin.
    apply (exec_later_runs (runs s)) in Hin.
    + destruct Hin as [Hin|[Hle Hin]].
      * exfalso. unfold reloadStores, forceReloadTrigger_next in Hin.
        cbn in Hin. destruct (connection s); cbn in Hin;
          apply H4 in Hin; lia.
      * repeat split; [done|done|]. intros Hem%H3. lia.
    + unfold reloadStores, forceReloadTrigger_next. cbn.
      destruct (connection s) eqn:Hc; cbn.
      * intros k [= <-]. lia.
      * intros k Hk. rewrite (H1 eq_refl) in Hk. done.
    + unfold reloadStores, forceReloadTrigger_next. cbn.
      destruct (connection s); cbn; lia.
  - intros v Hc [em Hem].
    unfold reloadStores, forceReloadTrigger_next, settle. cbn.
    rewrite Hc. cbn. rewrite bool_decide_eq_true_2 by done.
    unfold storesStream_emit. cbn.
    pose proof (deliverAll_second {| run := runs s; value := v |}
                  (takers s ++ [{| promise := promises s; seen := 1 |}])
                  {| promise := promises s; seen := 1 |}) as Hsecond.
    rewrite Hem. cbn.
    destruct (deliverAll _ _) as [keep done'] eqn:Hd. cbn.
    apply elem_of_app. right. apply Hsecond; [|done].
    apply elem_of_app. right. apply list_elem_of_here.
Qed.

Lemma getStoresStream_step account s :
  runs (getStoresStream account s) = S (runs s) ∧
  connection (getStoresStream account s) = true ∧
  accountStream (getStoresStream account s) = Some account ∧
  activations (getStoresStream account s)
  = (if connection s then activations s else S (activations s)).
Proof.
  unfold getStoresStream, accountStream_next, storesStream_connect.
  destruct (connection s) eqn:Hc; cbn; rewrite ?Hc; cbn; done.
Qed.

Lemma exec_subscriptions s history :
  Forall (λ o, isReloadStores o = false) history →
  runs (exec s history) = (runs s + subscribeCalls history)%nat ∧
  connection (exec s history)
  = connection s || bool_decide (0 < subscribeCalls history)%nat.
Proof.
  unfold subscribeCalls.
  revert s. induction history as [|o history IH]; intros s Hno.
  - cbn. split; [lia|]. by rewrite orb_false_r.
  - apply Forall_cons in Hno as [Ho Hno]. cbn [exec foldl].
    fold (exec (occur s o) history).
    destruct (IH (occur s o) Hno) as [-> ->]. clear IH.
    destruct o as [account| |k v]; [| done |].
    + rewrite filter_cons_True by done. cbn [occur length].
      destruct (getStoresStream_step account s) as (-> & -> & _).
      split; [by rewrite Nat.add_succ_r|].
      rewrite (bool_decide_eq_true_2 (0 < S _)%nat) by apply Nat.lt_0_succ.
      by rewrite orb_true_r.
    + rewrite filter_cons_False by done. cbn [occur].
      unfold settle. case_bool_decide; [|done].
      unfold storesStream_emit. cbn.
      by destruct (deliverAll _ (takers s)).
Qed.

(** C8: every call of [getStoresStream] starts exactly one pipeline run,
whatever account it passes (also the one already current); it leaves the
stream connected, and connects it only when it was not.  So a history of
[n] subscriptions from the start (with runs settling in between, and no
reload) has started [n] runs and has connected the source once, if at
all. *)
Theorem getStoresStream_one_run_per_call :
  (∀ s account,
     runs (getStoresStream account s) = S (runs s) ∧
     connection (getStoresStream account s) = true ∧
     accountStream (getStoresStream account s) = Some account ∧
     activations (getStoresStream account s)
     = (if connection s then activations s else S (activations s))) ∧
  (∀ history : list (Occurrence (Account := Account)),
     Forall (λ o, isReloadStores o = false) history →
     runs (exec StoreService history) = subscribeCalls history ∧
     activations (exec StoreService history)
     = Nat.min 1 (subscribeCalls history)).
Proof.
  split; [intros s account; apply getStoresStream_step|].
  intros history Hno.
  destruct (exec_subscriptions StoreService history Hno) as [Hruns Hconn].
  split; [by rewrite Hruns|].
  pose proof (consistent_exec StoreService history consistent_StoreService)
    as (_ & _ & _ & _ & _ & ->).
  rewrite Hconn. cbn [connection StoreService orb].
  case_bool_decide; destruct (subscribeCalls history); cbn; lia.
Qed.

End ServiceProperties.

Lemma reloadStores_resolves_with_later_result_witness :
  (0%nat, {| run := 1; value := None |})
  ∈ resolved (exec (reloadStores loadedService) [Settle 1 None]) ∧
  (runs loadedService ≤ 1)%nat ∧
  Settle 1 None ∈ [Settle (Account := string) 1 None] ∧
  replay loadedService ≠ Some {| run := 1; value := None |}.
Proof.
  destruct (reloadStores_resolves_with_later_result loadedService
              (ex_intro _ [GetStoresStream "player"; Settle 0 (Some [])] eq_refl))
    as [Hlater Hnext].
  assert ((0%nat, {| run := 1; value := None |})
          ∈ resolved (exec (reloadStores loadedService) [Settle 1 None])) as Hin.
  { apply (Hnext None eq_refl). eexists. reflexivity. }
  split; [exact Hin|]. exact (Hlater [Settle 1 None] _ Hin).
Defined.

Lemma getStoresStream_one_run_per_call_witness :
  runs (exec StoreService sampleHistory) = 3%nat ∧
  activations (exec StoreService sampleHistory) = 1%nat.
Proof.
  apply (proj2 getStoresStream_one_run_per_call sampleHistory).
  repeat constructor.
Defined.

(** Without a buffered value the promise of [reloadStores] waits for two
values: the result of the run that the call starts does not resolve it, the
next one does. *)
Example reloadStores_before_first_result :
  let s := exec StoreService [GetStoresStream "player"; ReloadStores;
                              Settle 1 None] in
  resolved s = [] ∧
  resolved (exec s [ReloadStores; Settle 2 (Some [])])
  = [(0%nat, {| run := 2; value := Some [] |});
     (1%nat, {| run := 2; value := Some [] |})].
Proof. split; reflexivity. Qed.

(** A run that a later call supersedes never reaches the stream. *)
Example superseded_run_is_dropped :
  let s := exec StoreService [GetStoresStream "player"; GetStoresStream "other";
                              Settle 0 (Some [])] in
  replay s = None ∧ inner s = Some 1%nat.
Proof. split; reflexivity. Qed.

(** * Further properties of the store service code *)

(** ** [findLastPlayedDate] *)

Lemma reduce_app {A B} (f : B → A → Result B) (l1 l2 : list A) (memo : B) :
  reduce f (l1 ++ l2) memo = rbind (reduce f l1 memo) (reduce f l2).
Proof.
  revert memo. induction l1 as [|x l1 IH]; intros memo; [done|].
  cbn [app reduce]. destruct (f memo x); cbn [rbind]; [apply IH|done].
Qed.

Lemma reduce_ok_wellFormed (rawStores : list RawEntry) (memo d : JsDate) :
  reduce lastPlayedStep rawStores memo = Ok d → wellFormed rawStores = true.
Proof.
  revert memo. induction rawStores as [|x l IH]; intros memo; [done|].
  cbn [reduce]. destruct (lastPlayedStep memo x) as [d'|] eqn:Hstep; [|done].
  cbn [rbind]. intros Hl%IH. cbn [wellFormed forallb]. fold (wellFormed l).
  rewrite Hl, andb_true_r.
  destruct x as [raw|]; [|done]. cbn in Hstep |- *. unfold isVaultRecord.
  destruct (bool_decide (raw_id raw = "vault")); [done|].
  by destruct (raw_character raw).
Qed.

Lemma wellFormed_Permutation (l l' : list RawEntry) :
  l ≡ₚ l' → wellFormed l = wellFormed l'.
Proof.
  unfold wellFormed. induction 1 as [|x l l' _ IH|x y l|l1 l2 l3 _ IH1 _ IH2].
  - done.
  - cbn. by rewrite IH.
  - cbn. by rewrite !andb_assoc, (andb_comm (wellFormedRaw y)).
  - by rewrite IH1.
Qed.

Lemma characterTimes_Permutation (l l' : list RawEntry) :
  l ≡ₚ l' → characterTimes l ≡ₚ characterTimes l'.
Proof.
  induction 1 as [|x l l' _ IH|x y l|l1 l2 l3 _ IH1 _ IH2].
  - done.
  - rewrite (characterTimes_cons x l), (characterTimes_cons x l').
    by rewrite IH.
  - rewrite (characterTimes_cons y (x :: l)), (characterTimes_cons x l),
      (characterTimes_cons x (y :: l)), (characterTimes_cons y l).
    rewrite !app_assoc. f_equiv. apply Permutation_app_comm.
  - by rewrite IH1.
Qed.

Lemma maxFrom_Permutation (a : Z) (ts ts' : list Z) :
  ts ≡ₚ ts' → maxFrom a ts = maxFrom a ts'.
Proof.
  unfold maxFrom.
  induction 1 as [|x l l' _ IH|x y l|l1 l2 l3 _ IH1 _ IH2]; cbn [foldr].
  - done.
  - by rewrite IH.
  - lia.
  - by rewrite IH1.
Qed.

(** X1: the date found does not depend on the order of the raw records: a
reordered list gives the same date, or the same [TypeError]. *)
Theorem findLastPlayedDate_order_independent (rawStores rawStores' : list RawEntry) :
  rawStores ≡ₚ rawStores' →
  findLastPlayedDate rawStores = findLastPlayedDate rawStores'.
Proof.
  intros Hperm. unfold findLastPlayedDate, epoch.
  destruct (reduce lastPlayedStep rawStores (DateAt 0)) as [d|e] eqn:Hr;
    destruct (reduce lastPlayedStep rawStores' (DateAt 0)) as [d'|e'] eqn:Hr'.
  - apply reduce_lastPlayed in Hr as ->. apply reduce_lastPlayed in Hr' as ->.
    do 2 f_equal. by apply maxFrom_Permutation, characterTimes_Permutation.
  - apply reduce_ok_wellFormed in Hr.
    rewrite (wellFormed_Permutation _ _ Hperm) in Hr.
    destruct (reduce_wellFormed rawStores' 0 Hr) as [d' Hd']. congruence.
  - apply reduce_ok_wellFormed in Hr'.
    rewrite <- (wellFormed_Permutation _ _ Hperm) in Hr'.
    destruct (reduce_wellFormed rawStores 0 Hr') as [d Hd]. congruence.
  - apply reduce_throws_TypeError in Hr as ->.
    by apply reduce_throws_TypeError in Hr' as ->.
Qed.

Lemma findLastPlayedDate_order_independent_witness :
  findLastPlayedDate twoCharacterRaws = findLastPlayedDate reorderedRaws.
Proof.
  apply findLastPlayedDate_order_independent.
  unfold twoCharacterRaws, reorderedRaws.
  etrans; [apply Permutation_swap|]. apply Permutation_skip, Permutation_swap.
Defined.

(** X2: a character record whose [dateLastPlayed] does not parse (an invalid
date) is skipped: the comparison with it is false, so the result is that of
the list without the record. *)
Theorem findLastPlayedDate_skips_invalid_date (before after : list RawEntry)
    (raw : RawStore) (c : RawCharacter) :
  raw_id raw ≠ "vault" →
  raw_character raw = Some c →
  dateLastPlayed c = InvalidDate →
  findLastPlayedDate (before ++ Some raw :: after)
  = findLastPlayedDate (before ++ after).
Proof.
  intros Hid Hc Hdate. unfold findLastPlayedDate.
  rewrite !reduce_app. destruct (reduce lastPlayedStep before epoch) as [memo|];
    [|done].
  cbn [rbind reduce lastPlayedStep].
  rewrite (bool_decide_eq_false_2 _ Hid), Hc, Hdate. done.
Qed.

Lemma findLastPlayedDate_skips_invalid_date_witness :
  findLastPlayedDate [mkChar "hunter" (DateAt 1000); mkChar "ghost" InvalidDate;
                      mkVaultRaw]
  = findLastPlayedDate [mkChar "hunter" (DateAt 1000); mkVaultRaw].
Proof.
  apply (findLastPlayedDate_skips_invalid_date
           [mkChar "hunter" (DateAt 1000)] [mkVaultRaw]
           {| raw_id := "ghost";
              raw_character := Some {| dateLastPlayed := InvalidDate |};
              raw_data := [] |}
           {| dateLastPlayed := InvalidDate |}); [discriminate|done|done].
Defined.

(** ** [processStore] *)

(** X3: the bucket mapping of a store that [processStore] resolves with
splits the store's items by the hash of their location: the list under a key
is exactly the items located under that hash, in the order of the items;
every item is found under the hash of its location; and a key with an empty
list is the hash of a catalog bucket. *)
Theorem processStore_buckets_partition {Defs RawItem : Type}
    (makeVault : RawStore → Currencies → Made)
    (makeCharacter : RawStore → Defs → JsDate → Currencies → Made)
    (processItems : D1Store → list RawItem → Defs → InventoryBuckets
                    → Result (list D1Item))
    (raw : RawEntry) (defs : Defs) (bs : InventoryBuckets)
    (currencies : Currencies) (lastPlayedDate : JsDate) (store : D1Store) :
  resolved_store (processStore makeVault makeCharacter processItems
                    raw defs bs currencies lastPlayedDate) = Some store →
  (∀ k l, buckets store !! k = Some l →
          l = filter (λ i, hash (location i) = k) (items store)) ∧
  (∀ i, i ∈ items store →
        ∃ l, buckets store !! hash (location i) = Some l ∧ i ∈ l) ∧
  (∀ k, buckets store !! k = Some [] → k ∈ hash <$> catalogOf bs).
Proof.
  intros (made & its & -> & _ & Hits)%processStore_resolved.
  cbn [items finishStore] in *. clear Hits. split; [|split].
  - intros k l. rewrite finishStore_buckets_lookup.
    destruct (filter _ its) as [|i f]; [|by intros [= <-]].
    case_bool_decide; [by intros [= <-]|done].
  - intros i Hi. rewrite finishStore_buckets_lookup.
    assert (i ∈ filter (λ j, hash (location j) = hash (location i)) its) as Hin
      by (by apply list_elem_of_filter).
    destruct (filter _ its) as [|j f]; [by apply elem_of_nil in Hin|eauto].
  - intros k. rewrite finishStore_buckets_lookup.
    destruct (filter _ its) as [|i f]; [|done].
    by case_bool_decide.
Qed.

Lemma processStore_buckets_partition_witness :
  ∃ store l,
    resolved_store (sampleProcessStore tidyVault () sampleBuckets [] epoch)
    = Some store ∧
    buckets store !! 3448274439 = Some l ∧
    {| item_id := "vault"; location := helmet |} ∈ l.
Proof.
  eexists.
  destruct (processStore_buckets_partition
              sampleMakeVault sampleMakeCharacter sampleProcessItems
              tidyVault () sampleBuckets [] epoch _ eq_refl)
    as (_ & Hfound & _).
  destruct (Hfound {| item_id := "vault"; location := helmet |}) as (l & Hl & Hin).
  { vm_compute. apply list_elem_of_further, list_elem_of_further,
      list_elem_of_here. }
  exists l. split; [reflexivity|]. split; [exact Hl|exact Hin].
Defined.

Section Conversions.

Context {Defs RawItem : Type}.
Variable makeVault : RawStore → Currencies → Made (RawItem := RawItem).
Variable makeCharacter : RawStore → Defs → JsDate → Currencies → Made (RawItem := RawItem).
Variable processItems :
  D1Store → list RawItem → Defs → InventoryBuckets → Result (list D1Item).

Local Abbreviation convert :=
  (mapProcessStore makeVault makeCharacter processItems).


(** Every record gets an entry, and only a null record gets [undefined]. *)
Lemma mapProcessStore_entries (rawStores : list RawEntry) (defs : Defs)
    (bs : InventoryBuckets) (currencies after : Currencies) (d : JsDate)
    (ps : list (option (Result D1Store))) :
  convert rawStores defs bs currencies d = (Ok ps, after) →
  Forall2 (λ raw p, is_Some raw ↔ is_Some p) rawStores ps.
Proof.
  revert currencies ps. induction rawStores as [|raw rest IH];
    intros currencies ps; cbn [mapProcessStore].
  - intros [= <- _]. constructor.
  - destruct (processStore _ _ _ raw defs bs currencies d) as [[p|e] cur1] eqn:Hp;
      [|done].
    destruct (convert rest defs bs cur1 d) as [[ps'|e] cur2] eqn:Hrest; [|done].
    intros [= <- <-]. constructor; [|by eapply IH].
    unfold processStore in Hp. destruct raw as [raw|].
    + destruct (if bool_decide _ then _ else _) as [[[made its]|e] cur'];
        simplify_eq. split; eauto.
    + simplify_eq. split; by intros [].
Qed.

End Conversions.

(** ** The vault counts add up *)

Lemma totalCount_insert (vc : gmap Z VaultCount) (k : Z) (entry : VaultCount) :
  totalCount (<[k := entry]> vc)
  = count entry + totalCount vc
    - match vc !! k with Some old => count old | None => 0 end.
Proof.
  unfold totalCount. destruct (vc !! k) as [old|] eqn:Hk.
  - rewrite <- (insert_delete_eq vc).
    rewrite map_fold_insert_L; [|intros; lia|apply lookup_delete_eq].
    rewrite (map_fold_delete_L _ _ k old vc); [lia|intros; lia|done].
  - rewrite map_fold_insert_L; [lia|intros; lia|done].
Qed.

Lemma totalCount_foldl (sb : gmap Z (list D1Item))
    (visited : list (InventoryBucket * InventoryBucket))
    (vc : gmap Z VaultCount) :
  totalCount (foldl (countBucket sb) vc visited)
  = totalCount vc
    + Z.of_nat (sum_list_with (λ p, length (default [] (sb !! hash p.1))) visited).
Proof.
  revert vc. induction visited as [|p visited IH]; intros vc.
  - cbn. lia.
  - cbn [foldl sum_list_with]. rewrite IH. unfold countBucket. cbn zeta.
    rewrite totalCount_insert.
    destruct (vc !! hash p.2) as [old|]; cbn [default count];
      unfold Datatypes.id; lia.
Qed.

Lemma length_filter_elem_of_cons {A} (key : A → Z) (k : Z) (ks : list Z)
    (l : list A) :
  k ∉ ks →
  length (filter (λ x, key x ∈ k :: ks) l)
  = (length (filter (λ x, key x = k) l)
     + length (filter (λ x, key x ∈ ks) l))%nat.
Proof.
  intros Hk. induction l as [|x l IH]; [done|].
  rewrite !filter_cons.
  destruct (decide (key x = k)) as [Hx|Hx].
  - rewrite decide_True by (rewrite Hx; apply list_elem_of_here).
    rewrite decide_False by (by rewrite Hx). cbn [length]. by rewrite IH.
  - destruct (decide (key x ∈ ks)) as [Hin|Hin].
    + rewrite decide_True by (by apply list_elem_of_further).
      cbn [length]. rewrite IH. lia.
    + rewrite decide_False; [done|].
      intros [?|?]%elem_of_cons; done.
Qed.

Lemma sum_heldIn_NoDup (its : list D1Item)
    (ps : list (InventoryBucket * InventoryBucket)) :
  NoDup ((λ p, hash p.1) <$> ps) →
  sum_list_with (λ p, heldIn its p.1) ps
  = length (filter (λ i, hash (location i) ∈ (λ p, hash p.1) <$> ps) its).
Proof.
  induction ps as [|p ps IH]; intros Hnodup.
  - cbn. induction its as [|i its IHits]; [done|].
    rewrite filter_cons_False; [done|]. apply not_elem_of_nil.
  - rewrite fmap_cons in Hnodup |- *. apply NoDup_cons in Hnodup as [Hp Hnodup].
    cbn [sum_list_with]. rewrite IH by done.
    by rewrite (length_filter_elem_of_cons _ _ _ _ Hp).
Qed.

(** X7: in a vault store that [processStore] resolves with, the counts of
all the vault buckets add up to the number of the vault's items located in a
catalog bucket that has a vault bucket, provided these catalog buckets have
distinct hashes: no such item is left out and none is counted twice. *)
Theorem processStore_vaultCounts_total {Defs RawItem : Type}
    (makeVault : RawStore → Currencies → Made)
    (makeCharacter : RawStore → Defs → JsDate → Currencies → Made)
    (processItems : D1Store → list RawItem → Defs → InventoryBuckets
                    → Result (list D1Item))
    (raw : RawEntry) (defs : Defs) (bs : InventoryBuckets)
    (currencies : Currencies) (lastPlayedDate : JsDate) (store : D1Store) :
  resolved_store (processStore makeVault makeCharacter processItems
                    raw defs bs currencies lastPlayedDate) = Some store →
  isVault store = true →
  NoDup (vaultedHashes bs) →
  ∃ vc, vaultCounts store = Some vc ∧
        totalCount vc
        = Z.of_nat (length (filter (λ i, hash (location i) ∈ vaultedHashes bs)
                                   (items store))).
Proof.
  intros (made & its & -> & Hv & Hits)%processStore_resolved Hvault Hnodup.
  rewrite Hvault in Hv. cbn [items finishStore] in Hits |- *. clear Hits.
  exists (computeVaultCounts bs (buckets (finishStore made bs its))).
  split.
  { cbn [vaultCounts finishStore buckets]. by rewrite <- Hv. }
  unfold computeVaultCounts. rewrite totalCount_foldl. f_equal.
  unfold totalCount at 1. rewrite map_fold_empty, Z.add_0_l. f_equal.
  unfold vaultedHashes in *. rewrite <- (sum_heldIn_NoDup its _ Hnodup).
  unfold vaultIteration. fold (catalogOf bs). rewrite sortBy_Permutation.
  apply sum_list_with_agree. intros [b vb] [Hb _]%withVaultBucket_elem_of.
  cbn [fst]. by rewrite finishStore_buckets_catalog.
Qed.

Lemma processStore_vaultCounts_total_witness :
  ∃ store vc,
    resolved_store (sampleProcessStore stockedVault () sampleBuckets [] epoch)
    = Some store ∧
    vaultCounts store = Some vc ∧
    totalCount vc = 9.
Proof.
  eexists.
  destruct (processStore_vaultCounts_total
              sampleMakeVault sampleMakeCharacter sampleProcessItems
              stockedVault () sampleBuckets [] epoch _ eq_refl eq_refl)
    as (vc & Hvc & Htotal).
  { refine (bool_decide_unpack _ _). by vm_compute. }
  exists vc. split; [reflexivity|]. split; [exact Hvc|].
  rewrite Htotal. by vm_compute.
Defined.

(** ** [loadStores]: the outcomes of a cycle *)

Lemma Promise_all_length {A} (ps : list (Result A)) (l : list A) :
  Promise_all ps = Ok l → length l = length ps.
Proof.
  revert l. induction ps as [|[a|e] ps IH]; intros l; cbn [Promise_all rbind].
  - by intros [= <-].
  - destruct (Promise_all ps) as [l'|]; cbn [rbind]; [|done].
    intros [= <-]. cbn. f_equal. by apply IH.
  - done.
Qed.

Lemma wellFormed_no_null (rawStores : list RawEntry) :
  wellFormed rawStores = true → Forall is_Some rawStores.
Proof.
  unfold wellFormed. induction rawStores as [|[raw|] l IH]; cbn.
  - constructor.
  - intros [_ Hl]%andb_prop. constructor; eauto.
  - done.
Qed.

Lemma compact_length_no_undefined {A} (raws : list RawEntry)
    (ps : list (option A)) :
  Forall2 (λ raw p, is_Some raw ↔ is_Some p) raws ps →
  Forall is_Some raws →
  length (compact ps) = length raws.
Proof.
  unfold compact. induction 1 as [|raw p raws ps Hp _ IH]; [done|].
  intros [Hraw Hraws]%Forall_cons. apply Hp in Hraw as [a ->].
  cbn. f_equal. by apply IH.
Qed.

Section Cycles.

Context {Defs RawItem AppState Account : Type}.

Variable makeVault : RawStore → Currencies → Made (RawItem := RawItem).
Variable makeCharacter : RawStore → Defs → JsDate → Currencies → Made (RawItem := RawItem).
Variable processItems :
  D1Store → list RawItem → Defs → InventoryBuckets → Result (list D1Item).
Variable currentAccountSelector : AppState → option Account.
Variable storesSelector : AppState → list D1Store.
Variable bucketsSelector : AppState → InventoryBuckets.
Variable reducer : Action → AppState → AppState.
Variable getPlatforms : AppState → Result () * AppState.
Variable getDefinitions : AppState → Result Defs * AppState.
Variable loadNewItems : Account → AppState → Result () * AppState.
Variable getStores : Account → AppState → Result (list RawEntry) * AppState.
Variable fetchRatings : list D1Store → AppState → Result () * AppState.
Variable cleanInfos : list D1Store → AppState → Result () * AppState.
Variable reviewsEnabled : bool.

Local Abbreviation try_block :=
  (loadStores_try makeVault makeCharacter processItems
     currentAccountSelector bucketsSelector reducer
     getPlatforms getDefinitions loadNewItems getStores
     fetchRatings cleanInfos reviewsEnabled).

Local Abbreviation load :=
  (loadStores makeVault makeCharacter processItems
     currentAccountSelector storesSelector bucketsSelector reducer
     getPlatforms getDefinitions loadNewItems getStores
     fetchRatings cleanInfos reviewsEnabled).

(** A cycle that resolves with stores went through its [try] block. *)
Lemma loadStores_stores_from_try (s s' : AppState) (stores : list D1Store)
    (evs : list Event) :
  load s = (Ok (Some stores), s', evs) →
  try_block s = (Ok (Some stores), s', evs).
Proof.
  unfold loadStores, tryCatch.
  destruct (try_block s) as [[[r|e] st] ev]; [by intros [= -> -> ->]|].
  rewrite loadStores_catch_spec. by case_bool_decide.
Qed.

(** X8: a cycle that resolves with stores has one store for every raw record
of the API answer: that answer holds no null record (a null record fails the
cycle before the conversions), so [_.compact] drops nothing.  The cycle
resets the id tracker, sets [--num-characters] to the number of records minus
one (to -1 for an empty answer), and then publishes the stores with one
[update]; it notifies nothing else. *)
Theorem loadStores_publishes_every_record (s s1 s2 s3 s' : AppState)
    (account : Account) (defs : Defs) (rawStores : list RawEntry)
    (stores : list D1Store) (evs : list Event) :
  currentAccountSelector s = Some account →
  getDefinitions s = (Ok defs, s1) →
  loadNewItems account s1 = (Ok (), s2) →
  getStores account s2 = (Ok rawStores, s3) →
  load s = (Ok (Some stores), s', evs) →
  wellFormed rawStores = true ∧
  length stores = length rawStores ∧
  evs = [ResetIdTracker;
         SetNumCharacters (Z.of_nat (length rawStores) - 1);
         Dispatch (update stores)] ∧
  ∃ s4, s' = reducer (update stores) s4.
Proof.
  intros Hacc Hdefs Hnew Hraw Hload%loadStores_stores_from_try.
  revert Hload. unfold loadStores_try, bind, select. rewrite Hacc. cbn.
  unfold Promise_all3, call. rewrite Hdefs, Hnew, Hraw. cbn.
  destruct (findLastPlayedDate rawStores) as [d|] eqn:Hdate; [|done]. cbn.
  apply reduce_ok_wellFormed in Hdate.
  destruct (mapProcessStore _ _ _ rawStores _ _ _ _) as [[ps|] cur] eqn:Hps;
    [|done]. cbn.
  destruct (Promise_all (compact ps)) as [converted|] eqn:Hall; [|done]. cbn.
  apply Promise_all_length in Hall.
  rewrite (compact_length_no_undefined rawStores ps) in Hall
    by eauto using mapProcessStore_entries, wellFormed_no_null.
  destruct (if reviewsEnabled then _ else _) as [[[[]|] sr] er] eqn:Hrate;
    [|done].
  assert (er = []) as ->
    by (destruct reviewsEnabled; unfold ret in Hrate; congruence).
  destruct (cleanInfos converted sr) as [[[]|] sc]; [|done]. cbn.
  intros [= <- <- <-]. rewrite Hall. eauto.
Qed.

(** X9: with no account selected the cycle asks [getPlatforms] once.  When
there is still no account it resolves with [undefined] and does nothing at
all: no event, no dispatch, no error.  When an account has been selected it
goes on exactly as a cycle started in the state that [getPlatforms] left. *)
Theorem loadStores_without_account (s s1 : AppState) :
  currentAccountSelector s = None →
  getPlatforms s = (Ok (), s1) →
  let cycle :=
    loadStores makeVault makeCharacter processItems
      currentAccountSelector storesSelector bucketsSelector reducer
      getPlatforms getDefinitions loadNewItems getStores
      fetchRatings cleanInfos reviewsEnabled in
  match currentAccountSelector s1 with
  | None => cycle s = (Ok None, s1, [])
  | Some _ => cycle s = cycle s1
  end.
Proof.
  intros Hacc Hplat. cbn zeta.
  destruct (currentAccountSelector s1) as [account|] eqn:Hacc1.
  - unfold loadStores, tryCatch, loadStores_try, bind, select, call.
    rewrite Hacc, Hplat, Hacc1. cbn. done.
  - unfold loadStores, tryCatch, loadStores_try, bind, select, call, ret.
    rewrite Hacc, Hplat, Hacc1. done.
Qed.

(** X10: [getPlatforms] is consulted only when no account is selected, and
[fetchRatings] only when reviews are enabled: otherwise the cycle is the same
whatever these two would do. *)
Theorem loadStores_calls_only_when_needed :
  (∀ getPlatforms' s,
     is_Some (currentAccountSelector s) →
     loadStores makeVault makeCharacter processItems
       currentAccountSelector storesSelector bucketsSelector reducer
       getPlatforms' getDefinitions loadNewItems getStores
       fetchRatings cleanInfos reviewsEnabled s
     = load s) ∧
  (reviewsEnabled = false →
   ∀ fetchRatings' s,
     loadStores makeVault makeCharacter processItems
       currentAccountSelector storesSelector bucketsSelector reducer
       getPlatforms getDefinitions loadNewItems getStores
       fetchRatings' cleanInfos reviewsEnabled s
     = load s).
Proof.
  split.
  - intros getPlatforms' s [account Hacc].
    unfold loadStores, tryCatch, loadStores_try, bind, select.
    by rewrite Hacc.
  - intros -> fetchRatings' s. reflexivity.
Qed.

(** The [try] block shows no notification. *)
Lemma loadStores_try_notified (s s' : AppState)
    (r : Result (option (list D1Store))) (evs : list Event) :
  try_block s = (r, s', evs) → notified evs = [].
Proof.
  unfold loadStores_try, Promise_all3, bind, emit, select, call, dispatch,
    liftResult, ret.
  intros H.
  repeat (case_match; simplify_eq/=); try done.
Qed.

(** X11: a cycle never rejects, and it has exactly one of four outcomes: it
resolves with stores, having dispatched their [update] and nothing else; or
it resolves with [undefined] having dispatched nothing and shown nothing (no
account), having shown one notification and dispatched nothing, or having
dispatched one [error] and shown nothing.  It never dispatches two plain
actions, and never both an [error] and a notification. *)
Theorem loadStores_outcomes (s : AppState) :
  ∃ r s' evs,
    load s = (Ok r, s', evs) ∧
    match r with
    | Some stores => dispatched evs = [update stores] ∧ notified evs = []
    | None =>
        (dispatched evs = [] ∧ notified evs = []) ∨
        (∃ e, dispatched evs = [] ∧ notified evs = [e]) ∨
        (∃ e, dispatched evs = [error e] ∧ notified evs = [])
    end.
Proof.
  unfold loadStores, tryCatch.
  destruct (try_block s) as [[[r|e] st] ev] eqn:Htry.
  - exists r, st, ev. split; [done|].
    pose proof (loadStores_try_dispatched _ _ _ _ _ _ _ _ _ _ _ _ _ _ _ _ _ Htry)
      as Hd.
    pose proof (loadStores_try_notified _ _ _ _ Htry) as Hn.
    destruct r as [stores|]; auto.
  - pose proof (loadStores_try_dispatched _ _ _ _ _ _ _ _ _ _ _ _ _ _ _ _ _ Htry)
      as Hd.
    pose proof (loadStores_try_notified _ _ _ _ Htry) as Hn.
    rewrite loadStores_catch_spec.
    case_bool_decide; eexists _, _, _; (split; [done|]);
      unfold dispatched, notified in *; rewrite !omap_app, ?Hd, ?Hn; cbn.
    + right. left. by exists e.
    + right. right. by exists e.
Qed.

End Cycles.

Lemma loadStores_publishes_every_record_witness :
  ∃ stores s' evs,
    sampleLoadStores (appWith [] apiFine) = (Ok (Some stores), s', evs) ∧
    length stores = 2%nat ∧
    evs = [ResetIdTracker; SetNumCharacters 1; Dispatch (update stores)].
Proof.
  do 3 eexists. split; [reflexivity|].
  destruct (loadStores_publishes_every_record
    sampleMakeVault sampleMakeCharacter sampleProcessItems
    app_account app_stores (λ _, sampleBuckets) sampleReducer
    (sampleIdle ()) (sampleIdle ()) (λ _, sampleIdle ())
    (λ _ s, (app_api s, s)) (λ _, sampleIdle ()) (λ _, sampleIdle ()) false
    (appWith [] apiFine) _ _ _ _ "player" () _ _ _
    eq_refl eq_refl eq_refl eq_refl eq_refl) as (_ & Hlen & Hevs & _).
  split; [exact Hlen|exact Hevs].
Defined.

Lemma loadStores_without_account_witness :
  sampleLoadStoresWith (sampleIdle ()) (λ _, sampleIdle ()) false (signedOut apiFine)
  = (Ok None, signedOut apiFine, []) ∧
  sampleLoadStoresWith selectPlayer (λ _, sampleIdle ()) false (signedOut apiFine)
  = sampleLoadStoresWith selectPlayer (λ _, sampleIdle ()) false (appWith [] apiFine).
Proof.
  split.
  - exact (loadStores_without_account
      sampleMakeVault sampleMakeCharacter sampleProcessItems
      app_account app_stores (λ _, sampleBuckets) sampleReducer
      (sampleIdle ()) (sampleIdle ()) (λ _, sampleIdle ())
      (λ _ s, (app_api s, s)) (λ _, sampleIdle ()) (λ _, sampleIdle ()) false
      (signedOut apiFine) (signedOut apiFine) eq_refl eq_refl).
  - exact (loadStores_without_account
      sampleMakeVault sampleMakeCharacter sampleProcessItems
      app_account app_stores (λ _, sampleBuckets) sampleReducer
      selectPlayer (sampleIdle ()) (λ _, sampleIdle ())
      (λ _ s, (app_api s, s)) (λ _, sampleIdle ()) (λ _, sampleIdle ()) false
      (signedOut apiFine) (appWith [] apiFine) eq_refl eq_refl).
Defined.

Lemma loadStores_calls_only_when_needed_witness :
  sampleLoadStoresWith platformsDown (λ _, sampleIdle ()) false (appWith [] apiFine)
  = sampleLoadStores (appWith [] apiFine) ∧
  sampleLoadStoresWith (sampleIdle ()) (λ _ s, (Throw TypeError, s)) false
    (appWith [] apiFine)
  = sampleLoadStores (appWith [] apiFine).
Proof.
  destruct (loadStores_calls_only_when_needed
    sampleMakeVault sampleMakeCharacter sampleProcessItems
    app_account app_stores (λ _, sampleBuckets) sampleReducer
    (sampleIdle ()) (sampleIdle ()) (λ _, sampleIdle ())
    (λ _ s, (app_api s, s)) (λ _, sampleIdle ()) (λ _, sampleIdle ()) false)
    as [Hplat Hrate].
  split.
  - apply (Hplat platformsDown (appWith [] apiFine)). by eexists.
  - apply (Hrate eq_refl (λ _ s, (Throw TypeError, s)) (appWith [] apiFine)).
Defined.

(** A rating service that throws fails the cycle when reviews are enabled. *)
Example loadStores_ratings_enabled :
  sampleLoadStoresWith (sampleIdle ()) (λ _ s, (Throw TypeError, s)) true
    (appWith [] apiFine)
  = (Ok None, sampleReducer (error TypeError) (appWith [] apiFine),
     [ResetIdTracker; ConsoleError TypeError;
      ReportException "D1StoresService" TypeError;
      Dispatch (error TypeError)]).
Proof. reflexivity. Qed.

(** ** The store service: what reaches the stream *)

Section StreamProperties.

Context {Account : Type}.
Implicit Types (s : Service (Account := Account)) (o : Occurrence (Account := Account)).

(** X12: from any state, a history starts one pipeline run for every
subscription and for every reload asked for while the stream is connected; a
reload asked for before the first subscription starts none (nobody hears the
trigger), and a run that settles starts none. *)
Theorem exec_runs_count s (history : list (Occurrence (Account := Account))) :
  runs (exec s history)
  = (runs s + pipelineTriggers (connection s) history)%nat.
Proof.
  revert s. induction history as [|o history IH]; intros s.
  - cbn. lia.
  - cbn [exec foldl]. fold (exec (occur s o) history). rewrite IH.
    destruct o as [account| |k v]; cbn [occur pipelineTriggers].
    + destruct (getStoresStream_step account s) as (-> & -> & _). lia.
    + unfold reloadStores, forceReloadTrigger_next. cbn.
      destruct (connection s) eqn:Hc; cbn; rewrite ?Hc; lia.
    + unfold settle. case_bool_decide; [|done].
      unfold storesStream_emit. cbn.
      by destruct (deliverAll _ (takers s)).
Qed.

Lemma occur_replay_later (N : nat) s o (em : Emission) :
  (∀ k, inner s = Some k → (N ≤ k)%nat) →
  replay (occur s o) = Some em →
  replay s = Some em ∨ (N ≤ run em)%nat.
Proof.
  intros Hinner. destruct o as [account| |k v]; cbn [occur].
  - unfold getStoresStream, accountStream_next, storesStream_connect.
    destruct (connection s) eqn:Hc; cbn; rewrite ?Hc; cbn; auto.
  - unfold reloadStores, forceReloadTrigger_next. cbn.
    destruct (connection s); cbn; auto.
  - unfold settle. case_bool_decide as Hk; [|by auto].
    unfold storesStream_emit. cbn.
    destruct (deliverAll _ (takers s)). cbn.
    intros [= <-]. right. cbn. by apply Hinner.
Qed.

Lemma exec_replay_later (N : nat) s history (em : Emission) :
  (∀ k, inner s = Some k → (N ≤ k)%nat) → (N ≤ runs s)%nat →
  replay (exec s history) = Some em →
  replay s = Some em ∨ (N ≤ run em)%nat.
Proof.
  revert s. induction history as [|o history IH]; intros s Hinner Hruns.
  - by left.
  - cbn [exec foldl]. fold (exec (occur s o) history).
    destruct (occur_later_runs N s o Hinner Hruns) as (Hinner' & Hruns' & _).
    intros [Hr|Hr]%(IH _ Hinner' Hruns'); [|by right].
    by apply (occur_replay_later N s o).
Qed.

Lemma ordered_occur s o : consistent s → ordered s → ordered (occur s o).
Proof.
  intros (H1 & H2 & H3 & H4 & H5 & H6) Hord. unfold ordered in *.
  destruct o as [account| |k v]; cbn [occur].
  - unfold getStoresStream, accountStream_next, storesStream_connect.
    destruct (connection s) eqn:Hc; cbn; rewrite ?Hc; cbn;
      intros em k Hem [= <-]; by apply H3.
  - unfold reloadStores, forceReloadTrigger_next. cbn.
    destruct (connection s); cbn; [|done].
    intros em k Hem [= <-]. by apply H3.
  - unfold settle. case_bool_decide as Hk; [|done].
    unfold storesStream_emit. cbn.
    by destruct (deliverAll _ (takers s)).
Qed.

Lemma reachable_ordered s : reachable s → ordered s.
Proof.
  intros [history ->].
  assert (∀ s, consistent s → ordered s → ordered (exec s history)) as Hgen.
  { induction history as [|o history IH]; intros s Hc Ho; [done|].
    cbn [exec foldl]. apply IH; [by apply consistent_occur|by apply ordered_occur]. }
  apply Hgen; [apply consistent_StoreService|]. by intros em k.
Qed.

(** X13: the stream never goes back to an older run: once it has delivered
the result of a run, every value it delivers afterwards comes from a run
started later, whatever order the promises settle in. *)
Theorem storesStream_newer_runs_only s
    (history : list (Occurrence (Account := Account))) (em em' : Emission) :
  reachable s →
  replay s = Some em →
  replay (exec s history) = Some em' →
  em' = em ∨ (run em < run em')%nat.
Proof.
  intros Hs Hem Hem'.
  pose proof (reachable_ordered s Hs) as Hord.
  destruct (reachable_consistent s Hs) as (_ & _ & H3 & _).
  apply (exec_replay_later (S (run em))) in Hem'.
  - destruct Hem' as [Hsame|Hlater]; [left; congruence|right; lia].
  - intros k Hk. by apply (Hord em k).
  - by apply H3.
Qed.

(** X14: a run that is still loading when a new subscription or a reload
arrives is dropped: whenever its promise settles, its result reaches neither
the stream nor any promise of [reloadStores]. *)
Theorem superseded_run_never_delivered s o (k : nat)
    (history : list (Occurrence (Account := Account))) :
  reachable s →
  inner s = Some k →
  isGetStoresStream o || isReloadStores o = true →
  (∀ em, replay (exec (occur s o) history) = Some em → run em ≠ k) ∧
  (∀ p em, (p, em) ∈ resolved (exec (occur s o) history) →
           (p, em) ∈ resolved s ∨ run em ≠ k).
Proof.
  intros Hs Hk Ho.
  pose proof (reachable_ordered s Hs) as Hord.
  destruct (reachable_consistent s Hs) as (H1 & H2 & H3 & H4 & H5 & H6).
  assert (connection s = true) as Hc.
  { destruct (connection s) eqn:Hc; [done|]. rewrite (H1 eq_refl) in Hk. done. }
  assert ((∀ j, inner (occur s o) = Some j → (S k ≤ j)%nat) ∧
          (S k ≤ runs (occur s o))%nat ∧
          replay (occur s o) = replay s ∧
          resolved (occur s o) = resolved s) as (Hinner & Hruns & Hrep & Hres).
  { specialize (H2 k Hk). destruct o as [account| |j v]; cbn [occur].
    - unfold getStoresStream, accountStream_next, storesStream_connect.
      rewrite Hc. cbn. rewrite ?Hc. cbn.
      repeat split; [intros j [= <-]; lia|lia].
    - unfold reloadStores, forceReloadTrigger_next. cbn. rewrite ?Hc. cbn.
      repeat split; [intros j [= <-]; lia|lia].
    - done. }
  split.
  - intros em [Hem|Hem]%(exec_replay_later (S k) _ _ _ Hinner Hruns); [|lia].
    rewrite Hrep in Hem. specialize (Hord em k Hem Hk). lia.
  - intros p em [Hin|[Hle _]]%(exec_later_runs (S k) _ _ _ _ Hinner Hruns).
    + left. by rewrite <- Hres.
    + right. lia.
Qed.

Lemma deliverAll_resolved_seen (em : Emission) (ts : list Taker) (p : nat)
    (em' : Emission) :
  (p, em') ∈ (deliverAll em ts).2 →
  ∃ t, t ∈ ts ∧ promise t = p ∧ seen t = 1%nat.
Proof.
  induction ts as [|t ts IH]; cbn [deliverAll].
  - intros []%elem_of_nil.
  - destruct (deliverAll em ts) as [keep done'] eqn:Hd. cbn [snd] in IH.
    unfold deliver. case_bool_decide as Hseen; cbn [snd].
    + intros [[= -> ->]|Hin]%elem_of_cons.
      * exists t. split; [apply list_elem_of_here|]. split; [done|lia].
      * destruct (IH Hin) as (t' & Ht' & Hp). exists t'.
        split; [by apply list_elem_of_further|done].
    + intros Hin. destruct (IH Hin) as (t' & Ht' & Hp). exists t'.
      split; [by apply list_elem_of_further|done].
Qed.

Lemma deliverAll_first (em : Emission) (ts : list Taker) (t : Taker) :
  t ∈ ts → seen t = 0%nat →
  {| promise := promise t; seen := 1 |} ∈ (deliverAll em ts).1.
Proof.
  induction ts as [|t0 ts IH]; [by intros []%elem_of_nil|].
  intros Hin Hseen. cbn [deliverAll].
  destruct (deliverAll em ts) as [keep done'] eqn:Hd. cbn [fst] in IH.
  apply elem_of_cons in Hin as [<-|Hin].
  - unfold deliver. rewrite Hseen. cbn. apply list_elem_of_here.
  - specialize (IH Hin Hseen). unfold deliver.
    case_bool_decide; cbn [fst]; [done|by apply list_elem_of_further].
Qed.

(** The state after a reload on a connected stream, and after the run
listened to has settled. *)
Lemma reloadStores_connected s :
  connection s = true →
  connection (reloadStores s) = true ∧
  inner (reloadStores s) = Some (runs s) ∧
  runs (reloadStores s) = S (runs s) ∧
  replay (reloadStores s) = replay s ∧
  takers (reloadStores s)
  = takers s ++ [{| promise := promises s;
                    seen := match replay s with
                            | Some _ => 1
                            | None => 0
                            end |}] ∧
  promises (reloadStores s) = S (promises s) ∧
  resolved (reloadStores s) = resolved s.
Proof.
  intros Hc. unfold reloadStores, forceReloadTrigger_next. cbn.
  rewrite Hc. cbn. by rewrite Hc.
Qed.

Lemma settle_active (k : nat) (v : Stores) s :
  inner s = Some k →
  connection (settle k v s) = connection s ∧
  inner (settle k v s) = None ∧
  runs (settle k v s) = runs s ∧
  replay (settle k v s) = Some {| run := k; value := v |} ∧
  takers (settle k v s) = (deliverAll {| run := k; value := v |} (takers s)).1 ∧
  promises (settle k v s) = promises s ∧
  resolved (settle k v s)
  = resolved s ++ (deliverAll {| run := k; value := v |} (takers s)).2.
Proof.
  intros Hk. unfold settle. rewrite bool_decide_eq_true_2 by done.
  unfold storesStream_emit. cbn.
  by destruct (deliverAll _ (takers s)).
Qed.

(** X15: when the stream has delivered nothing yet, the promise of
[reloadStores] is not resolved by the next value: no single occurrence after
the call resolves it.  On a connected stream it takes the result of the
reload and that of one more run, and resolves with the latter. *)
Theorem reloadStores_without_buffer_needs_two s :
  reachable s →
  replay s = None →
  (∀ o em, (promises s, em) ∉ resolved (occur (reloadStores s) o)) ∧
  (connection s = true →
   ∀ v v',
     (promises s, {| run := S (runs s); value := v' |})
     ∈ resolved (exec (reloadStores s)
                   [Settle (runs s) v; ReloadStores; Settle (S (runs s)) v'])).
Proof.
  intros Hs Hrep.
  destruct (reachable_consistent s Hs) as (H1 & H2 & H3 & H4 & H5 & H6).
  split.
  - intros o em Hin.
    assert (takers (reloadStores s)
            = takers s ++ [{| promise := promises s; seen := 0 |}]
            ∧ resolved (reloadStores s) = resolved s) as [Htakers Hres].
    { unfold reloadStores, forceReloadTrigger_next. cbn.
      destruct (connection s); cbn; by rewrite Hrep. }
    assert (∀ em, (promises s, em) ∉ resolved s) as Hfresh.
    { intros em0 Hin0%H4. lia. }
    destruct o as [account| |k v]; cbn [occur] in Hin.
    + apply (Hfresh em). rewrite <- Hres. revert Hin.
      unfold getStoresStream, accountStream_next, storesStream_connect.
      destruct (connection (reloadStores s)) eqn:Hc; cbn; rewrite ?Hc; cbn; done.
    + apply (Hfresh em). rewrite <- Hres. revert Hin.
      unfold reloadStores at 1, forceReloadTrigger_next. cbn.
      destruct (connection (reloadStores s)); cbn; done.
    + revert Hin. unfold settle. case_bool_decide as Hk.
      * unfold storesStream_emit. cbn.
        destruct (deliverAll _ (takers (reloadStores s))) as [keep done'] eqn:Hd.
        cbn. rewrite Hres.
        intros [Hin|Hin]%elem_of_app; [by apply (Hfresh em)|].
        pose proof (deliverAll_resolved_seen {| run := k; value := v |}
                      (takers (reloadStores s)) (promises s) em) as Hr.
        rewrite Hd in Hr. destruct (Hr Hin) as (t & Ht & Hp & Hseen).
        rewrite Htakers in Ht.
        apply elem_of_app in Ht as [Ht|Ht%list_elem_of_singleton].
        -- apply H5 in Ht. lia.
        -- subst t. cbn in Hseen. lia.
      * rewrite Hres. apply Hfresh.
  - intros Hc v v'.
    unfold exec. cbn [foldl occur].
    destruct (reloadStores_connected s Hc)
      as (Hc1 & Hi1 & Hrun1 & Hrep1 & Ht1 & Hp1 & _).
    rewrite Hrep in Ht1.
    destruct (settle_active (runs s) v (reloadStores s) Hi1)
      as (Hc2 & _ & Hrun2 & Hrep2 & Ht2 & Hp2 & _).
    set (s2 := settle (runs s) v (reloadStores s)) in *.
    destruct (reloadStores_connected s2) as (Hc3 & Hi3 & _ & _ & Ht3 & _ & _);
      [congruence|].
    rewrite Hrun2, Hrun1 in Hi3.
    destruct (settle_active (S (runs s)) v' (reloadStores s2) Hi3)
      as (_ & _ & _ & _ & _ & _ & ->).
    apply elem_of_app. right. apply deliverAll_second with
      (t := {| promise := promises s; seen := 1 |}); [|done].
    rewrite Ht3. apply elem_of_app. left. rewrite Ht2.
    apply (deliverAll_first _ _ {| promise := promises s; seen := 0 |});
      [|done].
    rewrite Ht1. apply elem_of_app. right. apply list_elem_of_here.
Qed.

End StreamProperties.

Lemma storesStream_newer_runs_only_witness :
  {| run := 1; value := None |} = {| run := 0; value := Some [] |}
  ∨ (0 < 1)%nat.
Proof.
  apply (storesStream_newer_runs_only loadedService
           [GetStoresStream "other"; Settle 1 None]
           {| run := 0; value := Some [] |} {| run := 1; value := None |}).
  - exists [GetStoresStream "player"; Settle 0 (Some [])]. reflexivity.
  - reflexivity.
  - reflexivity.
Defined.

Lemma superseded_run_never_delivered_witness :
  replay (exec (occur loadingService (GetStoresStream "other"))
            [Settle 0 (Some []); Settle 1 None])
  = Some {| run := 1; value := None |} ∧
  (1 ≠ 0)%nat.
Proof.
  split; [reflexivity|].
  apply (proj1 (superseded_run_never_delivered loadingService
                  (GetStoresStream "other") 0
                  [Settle 0 (Some []); Settle 1 None]
                  (ex_intro _ [GetStoresStream "player"] eq_refl) eq_refl
                  eq_refl)
           {| run := 1; value := None |} eq_refl).
Defined.

Lemma reloadStores_without_buffer_needs_two_witness :
  ((0%nat, {| run := 1; value := None |})
   ∉ resolved (occur (reloadStores loadingService) (Settle 1 None))) ∧
  ((0%nat, {| run := 2; value := Some [] |})
   ∈ resolved (exec (reloadStores loadingService)
                 [Settle 1 None; ReloadStores; Settle 2 (Some [])])).
Proof.
  destruct (reloadStores_without_buffer_needs_two loadingService
              (ex_intro _ [GetStoresStream "player"] eq_refl) eq_refl)
    as [Hnot Htwo].
  split.
  - apply (Hnot (Settle 1 None) {| run := 1; value := None |}).
  - apply (Htwo eq_refl None (Some [])).
Defined.

(** The sample history: the reload before the subscription starts no run. *)
Example exec_runs_count_sample :
  runs (exec StoreService reloadHistory) = 3%nat ∧
  pipelineTriggers false reloadHistory = 3%nat.
Proof. split; reflexivity. Qed.

(** ** [reloadStores] while nothing has been delivered *)

Section PendingReload.

Context {Account : Type}.
Implicit Types (s : Service (Account := Account)) (o : Occurrence (Account := Account)).

Lemma deliverAll_takers_seen (em : Emission) (ts : list Taker) (t' : Taker) :
  t' ∈ (deliverAll em ts).1 →
  ∃ t, t ∈ ts ∧ promise t' = promise t ∧ seen t' = S (seen t).
Proof.
  induction ts as [|t ts IH]; cbn [deliverAll].
  - intros []%elem_of_nil.
  - destruct (deliverAll em ts) as [keep done'] eqn:Hd. cbn [fst] in IH.
    unfold deliver. case_bool_decide; cbn [fst].
    + intros (t0 & Ht0 & Hp)%IH. exists t0.
      split; [by apply list_elem_of_further|done].
    + intros [->|(t0 & Ht0 & Hp)%IH]%elem_of_cons.
      * exists t. split; [apply list_elem_of_here|done].
      * exists t0. split; [by apply list_elem_of_further|done].
Qed.

Lemma waiting_settle (p k : nat) (v : Stores) s :
  waiting p s → waiting p (settle k v s).
Proof.
  intros [Hres Htakers].
  destruct (decide (inner s = Some k)) as [Hk|Hk].
  - destruct (settle_active k v s Hk) as (_ & Hi & _ & _ & Ht & _ & Hr).
    assert (∀ t, t ∈ takers s → promise t = p → seen t = 0%nat) as Hzero.
    { intros t Ht0 Hp. destruct (Htakers t Ht0 Hp) as [?|[_ Hnone]]; [done|].
      congruence. }
    split.
    + intros em. rewrite Hr.
      intros [Hin|Hin]%elem_of_app; [by apply (Hres em)|].
      apply deliverAll_resolved_seen in Hin as (t & Ht0 & Hp & Hseen).
      specialize (Hzero t Ht0 Hp). lia.
    + intros t'. rewrite Ht, Hi.
      intros (t & Ht0 & Hp & Hseen)%deliverAll_takers_seen Hp'.
      right. split; [|done].
      rewrite Hseen, (Hzero t Ht0); [done|congruence].
  - unfold settle. by rewrite bool_decide_eq_false_2.
Qed.

(** C7: the promise that [reloadStores] returns does not always resolve with
the result of the reload.  When the stream has delivered nothing yet (the
first load is still running, or the stream is not connected) the taker
receives no buffered value, so on a connected stream the result of the run
that the call starts is delivered to the stream but is only the first of the
two values the promise waits for: the promise stays pending, and no promise
of a run settling, in any number or order, resolves it. *)
Theorem reloadStores_pending_without_buffer s
    (history : list (Occurrence (Account := Account))) :
  reachable s →
  replay s = None →
  Forall (λ o, isSettle o = true) history →
  (connection s = true →
   ∀ v, replay (settle (runs s) v (reloadStores s))
        = Some {| run := runs s; value := v |}) ∧
  (∀ em, (promises s, em) ∉ resolved (exec (reloadStores s) history)).
Proof.
  intros Hs Hrep Hsettles.
  destruct (reachable_consistent s Hs) as (H1 & H2 & H3 & H4 & H5 & H6).
  split.
  - intros Hc v.
    destruct (reloadStores_connected s Hc) as (_ & Hi & _).
    by destruct (settle_active (runs s) v (reloadStores s) Hi)
      as (_ & _ & _ & -> & _).
  - assert (waiting (promises s) (reloadStores s)) as Hwait.
    { assert (takers (reloadStores s)
              = takers s ++ [{| promise := promises s; seen := 0 |}]
              ∧ resolved (reloadStores s) = resolved s) as [Htakers Hres].
      { unfold reloadStores, forceReloadTrigger_next. cbn.
        destruct (connection s); cbn; by rewrite Hrep. }
      split.
      - intros em. rewrite Hres. intros Hin%H4. lia.
      - intros t. rewrite Htakers.
        intros [Hin|Hin%list_elem_of_singleton]%elem_of_app Hp.
        + apply H5 in Hin. lia.
        + subst t. by left. }
    revert Hwait. generalize (reloadStores s).
    induction Hsettles as [|o history Ho _ IH]; intros t Hwait.
    + apply Hwait.
    + cbn [exec foldl]. fold (exec (occur t o) history). apply IH.
      destruct o as [account| |k v]; try done. by apply waiting_settle.
Qed.

End PendingReload.

Lemma reloadStores_pending_without_buffer_witness :
  replay (settle 1 (Some []) (reloadStores loadingService))
  = Some {| run := 1; value := Some [] |} ∧
  ((0%nat, {| run := 1; value := Some [] |})
   ∉ resolved (exec (reloadStores loadingService)
                 [Settle 1 (Some []); Settle 0 None; Settle 1 None])).
Proof.
  destruct (reloadStores_pending_without_buffer loadingService
              [Settle 1 (Some []); Settle 0 None; Settle 1 None]
              (ex_intro _ [GetStoresStream "player"] eq_refl) eq_refl)
    as [Hdelivered Hpending].
  { repeat constructor. }
  split.
  - exact (Hdelivered eq_refl (Some [])).
  - exact (Hpending {| run := 1; value := Some [] |}).
Defined.

(** The failing call on the sample service: the first load is running, the
reload starts run 1, run 1 settles with stores, and the promise of the
reload is still pending with one value received; the same call on a service
that has delivered a value resolves. *)
Example reloadStores_during_first_load :
  let s := exec (reloadStores loadingService) [Settle 1 (Some [])] in
  replay s = Some {| run := 1; value := Some [] |} ∧
  resolved s = [] ∧
  takers s = [{| promise := 0; seen := 1 |}] ∧
  resolved (exec (reloadStores loadedService) [Settle 1 (Some [])])
  = [(0%nat, {| run := 1; value := Some [] |})].
Proof. repeat split; reflexivity. Qed.

(** The same before any subscription: the trigger is not heard, no run
starts, and a later first subscription does not resolve the promise. *)
Example reloadStores_before_subscribing :
  let s := reloadStores (StoreService (Account := string)) in
  runs s = 0%nat ∧ inner s = None ∧
  resolved (exec s [GetStoresStream "player"; Settle 0 (Some [])]) = [].
Proof. repeat split; reflexivity. Qed.
